(** * vue-cli-plugin-apollo: the development supervisor and its status relay

    A shallow embedding of [index.js]: the [apollo:watch] command (argument
    flattening, the nodemon configuration, the lifecycle handlers), the
    [apollo:run] command (port resolution, the ready callback, the delay
    branch) and [sendIpcMessage] with its idle timer.

    Conventions.
    - A JavaScript value that can show up in the parsed command line is a
      [jsval]; numbers are the integer-valued ones (ports), printed in
      decimal.
    - [args] and [process.env] are finite maps from property names to values;
      [args.hasOwnProperty(k)] is membership in the map.
    - A process is a record [proc]: a virtual clock in milliseconds, the
      pending timeouts, the two module-level variables [ipc] and [ipcTimer],
      the environment, the registered nodemon handlers, the promise returned
      by [apollo:watch] and the trace [out] of observable effects, oldest
      first.
    - Node's [path.join] and [path.resolve] are the POSIX ones, on strings. *)

From stdpp Require Import base gmap strings list pretty.
From Stdlib Require Import ZArith Ascii.

Open Scope string_scope.
Open Scope list_scope.
Set Warnings "-register-all".

(** ** JavaScript values *)

Inductive jsval : Type :=
| JUndefined
| JNull
| JBool (b : bool)
| JNum (n : Z)
| JStr (s : string)
| JArr (elems : list jsval).

(** [!!v] of JavaScript: what [||] and [if] test. *)
Definition truthy (v : jsval) : bool :=
  match v with
  | JUndefined | JNull => false
  | JBool b => b
  | JNum n => negb (Z.eqb n 0)
  | JStr s => negb (String.eqb s "")
  | JArr _ => true
  end.

(** [a || b]. *)
Definition js_or (a b : jsval) : jsval := if truthy a then a else b.

(** [value !== true]. *)
Definition not_strictly_true (v : jsval) : bool :=
  match v with
  | JBool true => false
  | _ => true
  end.

Fixpoint join_with (sep : string) (l : list string) : string :=
  match l with
  | [] => ""
  | [x] => x
  | x :: rest => x +:+ sep +:+ join_with sep rest
  end.

(** [String(v)], also what a template literal does to [v]. *)
Fixpoint toString (v : jsval) : string :=
  match v with
  | JUndefined => "undefined"
  | JNull => "null"
  | JBool true => "true"
  | JBool false => "false"
  | JNum n => pretty n
  | JStr s => s
  | JArr elems =>
      join_with ","
        (map (fun e => match e with
                       | JUndefined | JNull => ""
                       | _ => toString e
                       end) elems)
  end.

(** An element as [Array.prototype.join] prints it. *)
Definition join_elem (v : jsval) : string :=
  match v with
  | JUndefined | JNull => ""
  | _ => toString v
  end.

(** [arr.join(sep)]. *)
Definition js_join (sep : string) (arr : list jsval) : string :=
  join_with sep (map join_elem arr).

(** Property read [obj[k]]: [undefined] when the property is absent. *)
Definition js_get (obj : gmap string jsval) (k : string) : jsval :=
  default JUndefined (obj !! k).

(** [process.env[k]]: a string, or [undefined]. *)
Definition env_get (env : gmap string string) (k : string) : jsval :=
  match env !! k with
  | Some s => JStr s
  | None => JUndefined
  end.

(** ** Command options and argument flattening *)

Definition DEFAULT_SERVER_FOLDER : string := "./apollo-server".

(** The object literal, as the list of its entries in insertion order, which
    is the order [for ... in] visits them. *)
Definition COMMAND_OPTIONS : list (string * string) :=
  [ ("--mock", "enables mocks");
    ("--enable-engine", "enables Apollo Engine");
    ("--delay", "delays run by a small duration");
    ("--port", "specify server port") ].

(** [s.substr(n)]. *)
Fixpoint substr (n : nat) (s : string) : string :=
  match n, s with
  | O, _ => s
  | S n', String _ s' => substr n' s'
  | S _, EmptyString => ""
  end.

(** One turn of the loop body on the accumulator [flatArgs]. *)
Definition flatArgs_step (args : gmap string jsval)
    (flatArgs : list jsval) (key : string) : list jsval :=
  let shortKey := substr 2 key in
  match args !! shortKey with
  | Some value =>
      let flatArgs := flatArgs ++ [JStr key] in
      if not_strictly_true value then flatArgs ++ [value] else flatArgs
  | None => flatArgs
  end.

Definition flatArgs (args : gmap string jsval) : list jsval :=
  foldl (flatArgs_step args) [] (map fst COMMAND_OPTIONS).

(** The [exec] template string. *)
Definition exec_string (cmd : string) (args : gmap string jsval) : string :=
  cmd +:+ " run apollo:run --delay " +:+ js_join " " (flatArgs args).

(** What the loop body appends for [key]. *)
Definition contribution (args : gmap string jsval) (key : string)
    : list jsval :=
  match args !! substr 2 key with
  | Some value => JStr key :: (if not_strictly_true value then [value] else [])
  | None => []
  end.

(** What one flag adds to the argument list, in the words of the
    specification: nothing when absent, its name when the value is [true],
    its name and the value otherwise. *)
Definition contributes (args : gmap string jsval) (key : string)
    (part : list jsval) : Prop :=
  match args !! substr 2 key with
  | None => part = []
  | Some (JBool true) => part = [JStr key]
  | Some value => part = [JStr key; value]
  end.

(** ** POSIX paths

    [path.join] and [path.resolve] of Node, POSIX flavour.  Both rest on
    [normalizeString], which walks the segments between slashes: an empty
    segment and [.] are skipped, [..] drops the last segment kept so far
    unless there is none or it is itself [..]; in that case [..] is kept
    when [allowAboveRoot] holds and skipped otherwise. *)

Fixpoint split_on (c : ascii) (s : string) : list string :=
  match s with
  | EmptyString => [""]
  | String a s' =>
      if Ascii.eqb a c then "" :: split_on c s'
      else match split_on c s' with
           | [] => [String a ""]
           | h :: t => String a h :: t
           end
  end.

Definition isAbsolute (p : string) : bool :=
  match p with
  | String a _ => Ascii.eqb a "/"
  | EmptyString => false
  end.

Fixpoint ends_with_slash (p : string) : bool :=
  match p with
  | EmptyString => false
  | String a EmptyString => Ascii.eqb a "/"
  | String _ p' => ends_with_slash p'
  end.

(** The segments kept so far are a stack: the head is the last one. *)
Definition normalize_step (allowAboveRoot : bool)
    (res : list string) (seg : string) : list string :=
  if String.eqb seg "" || String.eqb seg "." then res
  else if String.eqb seg ".." then
    match res with
    | [] => if allowAboveRoot then [".."] else []
    | last :: before =>
        if String.eqb last ".."
        then (if allowAboveRoot then ".." :: res else res)
        else before
    end
  else seg :: res.

Definition normalize_segments (allowAboveRoot : bool)
    (segs : list string) : list string :=
  rev (foldl (normalize_step allowAboveRoot) [] segs).

Definition normalizeString (path : string) (allowAboveRoot : bool) : string :=
  join_with "/" (normalize_segments allowAboveRoot (split_on "/" path)).

(** [path.normalize]. *)
Definition path_normalize (path : string) : string :=
  if String.eqb path "" then "."
  else
    let absolute := isAbsolute path in
    let trailingSeparator := ends_with_slash path in
    let body := normalizeString path (negb absolute) in
    let body := if String.eqb body "" && negb absolute then "." else body in
    let body := if negb (String.eqb body "") && trailingSeparator
                then body +:+ "/" else body in
    if absolute then "/" +:+ body else body.

(** [path.join(...parts)]. *)
Definition path_join (parts : list string) : string :=
  match filter (fun p => negb (String.eqb p "")) parts with
  | [] => "."
  | nonempty => path_normalize (join_with "/" nonempty)
  end.

(** The right-to-left loop of [path.resolve]: [pending] are the arguments
    not yet visited, last one first; the working directory comes after the
    last of them. *)
Fixpoint resolve_loop (cwd : string) (pending : list string)
    (resolvedPath : string) : string * bool :=
  match pending with
  | [] =>
      if String.eqb cwd "" then (resolvedPath, false)
      else (cwd +:+ "/" +:+ resolvedPath, isAbsolute cwd)
  | path :: earlier =>
      if String.eqb path "" then resolve_loop cwd earlier resolvedPath
      else if isAbsolute path then (path +:+ "/" +:+ resolvedPath, true)
      else resolve_loop cwd earlier (path +:+ "/" +:+ resolvedPath)
  end.

(** [path.resolve(...parts)] in a process whose working directory is
    [cwd]. *)
Definition path_resolve (cwd : string) (parts : list string) : string :=
  let '(resolvedPath, resolvedAbsolute) := resolve_loop cwd (rev parts) "" in
  let resolvedPath := normalizeString resolvedPath (negb resolvedAbsolute) in
  if resolvedAbsolute then "/" +:+ resolvedPath
  else if negb (String.eqb resolvedPath "") then resolvedPath
  else ".".

(** ** The plugin's surroundings

    What the module receives from outside: [hasYarn()], whether
    [IpcMessenger] is exported by the shared utilities, the project directory
    behind [api.resolve], the working directory, the [serverFolder] plugin
    option, and [defaultValue] of [./utils], which is not among the sources
    at hand and is left open. *)
Record surroundings : Type := Surroundings {
  hasYarn : bool;
  IpcMessenger : bool;
  context : string;
  cwd : string;
  serverFolder : option string;
  defaultValue : option string -> string -> string
}.

(** [api.resolve(p)] is [path.resolve(context, p)]. *)
Definition api_resolve (w : surroundings) (p : string) : string :=
  path_resolve (cwd w) [context w; p].

Definition cmd (w : surroundings) : string :=
  if hasYarn w then "yarn" else "npm".

Definition baseFolder (w : surroundings) : string :=
  defaultValue w (serverFolder w) DEFAULT_SERVER_FOLDER.

(** The object handed to [nodemon(...)]. *)
Record nodemon_config : Type := NodemonConfig {
  exec : string;
  watch : list string;
  ignore : list string;
  ext : string
}.

Definition watch_config (w : surroundings) (args : gmap string jsval)
    : nodemon_config :=
  {| exec := exec_string (cmd w) args;
     watch := [api_resolve w (baseFolder w)];
     ignore := [api_resolve w (path_join [baseFolder w; "live"])];
     ext := "js mjs json graphql gql" |}.

(** The names of a path, from the root down. *)
Definition path_segments (p : string) : list string :=
  filter (fun s => negb (String.eqb s "")) (split_on "/" p).

Fixpoint starts_with (l pre : list string) : bool :=
  match pre, l with
  | [], _ => true
  | p :: pre', x :: l' => String.eqb p x && starts_with l' pre'
  | _ :: _, [] => false
  end.

(** [child] lies strictly below [parent]. *)
Definition subpath_of (child parent : string) : bool :=
  starts_with (path_segments child) (path_segments parent)
  && negb (length (path_segments child) <=? length (path_segments parent))%nat.

(** [file] is [dir] or lies below it. *)
Definition lies_under (file dir : string) : bool :=
  starts_with (path_segments file) (path_segments dir).

Definition file_extension (file : string) : string :=
  default "" (last (split_on "." (default "" (last (split_on "/" file))))).

(** The file watcher as the specification describes it (nodemon itself is
    an external library): a change of a file counts when the file lies under
    a watched root, under no ignored path, and has one of the watched
    extensions. *)
Definition triggers_restart (c : nodemon_config) (file : string) : bool :=
  existsb (lies_under file) (watch c)
  && negb (existsb (lies_under file) (ignore c))
  && existsb (String.eqb (file_extension file)) (split_on " " (ext c)).

(** ** Status payloads and effects *)

(** The value of the [urls] key: [null], or an object with the playground
    address. *)
Inductive urls_value : Type :=
| UrlsNull
| UrlsOf (playground : string).

(** A status object; [None] is an absent key. *)
Record payload : Type := Payload {
  p_error : option bool;
  p_urls : option urls_value
}.

(** The one-key object put on the channel. *)
Record ipc_message : Type := IpcMessage {
  msg_key : string;
  msg_body : payload
}.

#[global] Instance urls_value_eq_dec : EqDecision urls_value.
Proof. solve_decision. Defined.

#[global] Instance payload_eq_dec : EqDecision payload.
Proof. solve_decision. Defined.

Definition ipc_namespace : string := "org.akryum.vue-apollo".

Definition wrap (message : payload) : ipc_message :=
  {| msg_key := ipc_namespace; msg_body := message |}.

(** The options object given to the GraphQL server, as far as it is built
    from the command line and the environment. *)
Record server_opts : Type := ServerOpts {
  port : jsval;
  graphqlPath : string;
  subscriptionsPath : string;
  engineKey : option string
}.

Inductive effect : Type :=
| NodemonStart (c : nodemon_config)
| ConsoleLog (text : string)
| IpcConnect (channel : nat)
| IpcSend (channel : nat) (m : ipc_message)
| IpcDisconnect (channel : nat)
| EnvAssign (name value : string)
| ServerStart (opts : server_opts)
| ProcessExit
| Uncaught (error : string).

(** What a pending timeout will call. *)
Inductive callback : Type :=
| CloseIdleChannel
| Run (args : gmap string jsval).

Inductive promise_state : Type :=
| Pending
| Fulfilled
| Rejected.

Inductive nodemon_event : Type :=
| Restart
| Crash
| Stdout (data : list string)
| Stderr (data : list string)
| Quit.

Definition event_name (ev : nodemon_event) : string :=
  match ev with
  | Restart => "restart"
  | Crash => "crash"
  | Stdout _ => "stdout"
  | Stderr _ => "stderr"
  | Quit => "quit"
  end.

(** ** Processes *)

Record timeout : Type := Timeout {
  handle : nat;
  due : nat;
  action : callback
}.

Record proc : Type := Proc {
  clock : nat;
  timers : list timeout;
  next_timer : nat;
  ipc : option nat;
  next_ipc : nat;
  ipcTimer : option nat;
  env : gmap string string;
  server_cb : option (jsval * string);
  handlers : list string;
  promise : option promise_state;
  exited : bool;
  out : list effect
}.

Definition fresh_proc (e : gmap string string) : proc :=
  {| clock := 0; timers := []; next_timer := 1; ipc := None; next_ipc := 0;
     ipcTimer := None; env := e; server_cb := None; handlers := [];
     promise := None; exited := false; out := [] |}.

Definition emit (e : effect) (s : proc) : proc :=
  Proc (clock s) (timers s) (next_timer s) (ipc s) (next_ipc s) (ipcTimer s)
       (env s) (server_cb s) (handlers s) (promise s) (exited s)
       (out s ++ [e]).

Definition set_clock (t : nat) (s : proc) : proc :=
  Proc t (timers s) (next_timer s) (ipc s) (next_ipc s) (ipcTimer s)
       (env s) (server_cb s) (handlers s) (promise s) (exited s) (out s).

Definition set_timers (ts : list timeout) (s : proc) : proc :=
  Proc (clock s) ts (next_timer s) (ipc s) (next_ipc s) (ipcTimer s)
       (env s) (server_cb s) (handlers s) (promise s) (exited s) (out s).

Definition set_ipc (c : option nat) (s : proc) : proc :=
  Proc (clock s) (timers s) (next_timer s) c (next_ipc s) (ipcTimer s)
       (env s) (server_cb s) (handlers s) (promise s) (exited s) (out s).

Definition set_ipcTimer (h : option nat) (s : proc) : proc :=
  Proc (clock s) (timers s) (next_timer s) (ipc s) (next_ipc s) h
       (env s) (server_cb s) (handlers s) (promise s) (exited s) (out s).

Definition set_env (e : gmap string string) (s : proc) : proc :=
  Proc (clock s) (timers s) (next_timer s) (ipc s) (next_ipc s) (ipcTimer s)
       e (server_cb s) (handlers s) (promise s) (exited s) (out s).

Definition set_server_cb (cb : option (jsval * string)) (s : proc) : proc :=
  Proc (clock s) (timers s) (next_timer s) (ipc s) (next_ipc s) (ipcTimer s)
       (env s) cb (handlers s) (promise s) (exited s) (out s).

Definition set_handlers (hs : list string) (s : proc) : proc :=
  Proc (clock s) (timers s) (next_timer s) (ipc s) (next_ipc s) (ipcTimer s)
       (env s) (server_cb s) hs (promise s) (exited s) (out s).

Definition set_promise (p : option promise_state) (s : proc) : proc :=
  Proc (clock s) (timers s) (next_timer s) (ipc s) (next_ipc s) (ipcTimer s)
       (env s) (server_cb s) (handlers s) p (exited s) (out s).

Definition set_exited (b : bool) (s : proc) : proc :=
  Proc (clock s) (timers s) (next_timer s) (ipc s) (next_ipc s) (ipcTimer s)
       (env s) (server_cb s) (handlers s) (promise s) b (out s).

(** [new IpcMessenger()] bound to [ipc]. *)
Definition new_ipc (s : proc) : proc :=
  Proc (clock s) (timers s) (next_timer s) (Some (next_ipc s))
       (S (next_ipc s)) (ipcTimer s)
       (env s) (server_cb s) (handlers s) (promise s) (exited s) (out s).

(** [setTimeout(cb, ms)]: the handle, and the process with the timeout
    pending. *)
Definition setTimeout (cb : callback) (ms : nat) (s : proc) : nat * proc :=
  (next_timer s,
   Proc (clock s) (timers s ++ [Timeout (next_timer s) (clock s + ms) cb])
        (S (next_timer s)) (ipc s) (next_ipc s) (ipcTimer s)
        (env s) (server_cb s) (handlers s) (promise s) (exited s) (out s)).

(** [clearTimeout(h)]: nothing happens on [undefined] and on a handle that
    is no longer pending. *)
Definition clearTimeout (h : option nat) (s : proc) : proc :=
  match h with
  | None => s
  | Some h => set_timers (filter (fun t => negb (handle t =? h)%nat) (timers s)) s
  end.

(** [process.exit()]. *)
Definition process_exit (s : proc) : proc :=
  set_exited true (emit ProcessExit s).

(** An exception nobody catches ends the process. *)
Definition uncaught (error : string) (s : proc) : proc :=
  set_exited true (emit (Uncaught error) s).

(** [resolve()]: settles the promise if it is still pending. *)
Definition resolve (s : proc) : proc :=
  match promise s with
  | Some Pending => set_promise (Some Fulfilled) s
  | _ => s
  end.

(** ** The status relay *)

Definition sendIpcMessage (w : surroundings) (message : payload)
    (s : proc) : proc :=
  let s :=
    match ipc s with
    | None => if IpcMessenger w then emit (IpcConnect (next_ipc s)) (new_ipc s)
              else s
    | Some _ => s
    end in
  match ipc s with
  | Some channel =>
      let s := emit (IpcSend channel (wrap message)) s in
      let s := clearTimeout (ipcTimer s) s in
      let '(h, s) := setTimeout CloseIdleChannel 3000 s in
      set_ipcTimer (Some h) s
  | None => s
  end.

(** ** [apollo:run] *)

(** [process.env[k] || d] for a string [d]. *)
Definition env_or (e : gmap string string) (k d : string) : string :=
  match e !! k with
  | Some v => if String.eqb v "" then d else v
  | None => d
  end.

Definition resolve_port (args : gmap string jsval)
    (e : gmap string string) : jsval :=
  js_or (js_or (js_get args "port") (env_get e "VUE_APP_GRAPHQL_PORT"))
        (JNum 4000).

(** The body of [run]. The server module [./graphql-server] is not among the
    sources at hand: starting it is an effect, and the callback it is given
    is kept with the two variables it closes over. *)
Definition run (w : surroundings) (args : gmap string jsval)
    (s : proc) : proc :=
  let port := resolve_port args (env s) in
  let s := emit (EnvAssign "VUE_APP_GRAPHQL_PORT" (toString port))
                (set_env (<["VUE_APP_GRAPHQL_PORT" := toString port]> (env s)) s) in
  let graphqlPath := env_or (env s) "VUE_APP_GRAPHQL_PATH" "/graphql" in
  let subscriptionsPath :=
    env_or (env s) "VUE_APP_GRAPHQL_SUBSCRIPTIONS_PATH" "/graphql" in
  let engineKey :=
    match env s !! "VUE_APP_APOLLO_ENGINE_KEY" with
    | Some k => if String.eqb k "" then None else Some k
    | None => None
    end in
  let opts := ServerOpts port graphqlPath subscriptionsPath engineKey in
  set_server_cb (Some (port, graphqlPath)) (emit (ServerStart opts) s).

(** The status object of the ready callback. *)
Definition ready_payload (port : jsval) (graphqlPath : string) : payload :=
  {| p_error := None;
     p_urls := Some (UrlsOf ("http://localhost:" +:+ toString port
                             +:+ graphqlPath)) |}.

(** The server calls back. *)
Definition server_ready (w : surroundings) (s : proc) : proc :=
  match server_cb s with
  | Some (port, graphqlPath) =>
      sendIpcMessage w (ready_payload port graphqlPath) s
  | None => s
  end.

Definition apollo_run (w : surroundings) (args : gmap string jsval)
    (s : proc) : proc :=
  if truthy (js_get args "delay")
  then snd (setTimeout (Run args) 300 s)
  else run w args s.

(** ** Time *)

Definition fire (w : surroundings) (cb : callback) (s : proc) : proc :=
  match cb with
  | CloseIdleChannel =>
      match ipc s with
      | Some channel => set_ipc None (emit (IpcDisconnect channel) s)
      | None => uncaught "TypeError" s
      end
  | Run args => run w args s
  end.

Definition is_due (now : nat) (t : timeout) : bool := (due t <=? now)%nat.

(** One millisecond passes; the timeouts that are due run, oldest first. *)
Definition tick (w : surroundings) (s : proc) : proc :=
  if exited s then s
  else
    let now := S (clock s) in
    let ready := filter (is_due now) (timers s) in
    let s := set_timers (filter (fun t => negb (is_due now t)) (timers s))
                        (set_clock now s) in
    foldl (fun s t => if exited s then s else fire w (action t) s) s ready.

Definition elapse (w : surroundings) (ms : nat) (s : proc) : proc :=
  Nat.iter ms (tick w) s.

(** ** [apollo:watch] *)

Definition status_ok : payload := {| p_error := Some false; p_urls := None |}.

Definition status_crashed : payload :=
  {| p_error := Some true; p_urls := Some UrlsNull |}.

(** The event names of the five [nodemon.on] calls, in order. *)
Definition listeners : list string :=
  ["restart"; "crash"; "stdout"; "stderr"; "quit"].

(** The command, from the call of [nodemon] to the last [nodemon.on]. The
    colours [chalk] adds to the console lines are left out. *)
Definition apollo_watch (w : surroundings) (args : gmap string jsval)
    (s : proc) : proc :=
  let s := set_promise (Some Pending) s in
  let s := emit (NodemonStart (watch_config w args)) s in
  let s := sendIpcMessage w status_ok s in
  set_handlers (handlers s ++ listeners) s.

(** The five listeners. *)
Definition on_event (w : surroundings) (ev : nodemon_event)
    (s : proc) : proc :=
  match ev with
  | Restart =>
      let s := emit (ConsoleLog "⏳  GraphQL API is restarting...") s in
      sendIpcMessage w status_ok s
  | Crash =>
      let s := emit (ConsoleLog "💥  GraphQL API crashed!") s in
      let s := emit (ConsoleLog "   Waiting for changes...") s in
      sendIpcMessage w status_crashed s
  | Stdout data => emit (ConsoleLog (join_with " " data)) s
  | Stderr data => emit (ConsoleLog (join_with " " data)) s
  | Quit => process_exit (resolve s)
  end.

(** nodemon emits [ev]: every listener registered under that name runs, in
    the order of registration, as long as the process lives. *)
Definition dispatch (w : surroundings) (ev : nodemon_event)
    (s : proc) : proc :=
  foldl (fun s name =>
           if exited s then s
           else if String.eqb name (event_name ev) then on_event w ev s
                else s)
        s (handlers s).

(** What can happen to a process: a command of the plugin is invoked, time
    passes, nodemon emits an event, the server calls back, or the relay is
    called directly. Nothing happens to a process that has exited. *)
Inductive input : Type :=
| InvokeWatch (args : gmap string jsval)
| InvokeRun (args : gmap string jsval)
| Elapse (ms : nat)
| Emits (ev : nodemon_event)
| ServerListening
| Notify (message : payload).

Definition step (w : surroundings) (s : proc) (i : input) : proc :=
  if exited s then s
  else match i with
       | InvokeWatch args => apollo_watch w args s
       | InvokeRun args => apollo_run w args s
       | Elapse ms => elapse w ms s
       | Emits ev => dispatch w ev s
       | ServerListening => server_ready w s
       | Notify message => sendIpcMessage w message s
       end.

Definition run_inputs (w : surroundings) (ins : list input)
    (s : proc) : proc :=
  foldl (step w) s ins.

(** A run of the relay alone: each call comes [gap] milliseconds after the
    one before. *)
Definition notify_calls (w : surroundings) (calls : list (nat * payload))
    (s : proc) : proc :=
  foldl (fun s call => sendIpcMessage w (snd call) (elapse w (fst call) s))
        s calls.

(** A run of the supervisor: each nodemon event comes [gap] milliseconds
    after the one before. *)
Definition supervise (w : surroundings) (evs : list (nat * nodemon_event))
    (s : proc) : proc :=
  foldl (fun s ev => dispatch w (snd ev) (elapse w (fst ev) s)) s evs.

(** The process lives and listens to the five nodemon events. *)
Definition is_watching (s : proc) : bool :=
  negb (exited s) && bool_decide (handlers s = listeners).

(** The status objects sent, in order. *)
Definition sent (tr : list effect) : list payload :=
  omap (fun e => match e with
                 | IpcSend _ m => Some (msg_body m)
                 | _ => None
                 end) tr.

(** The restart events the supervisor gets to handle: those before the
    first [quit]. *)
Fixpoint restarts_handled (evs : list (nat * nodemon_event)) : nat :=
  match evs with
  | [] => 0
  | (_, Quit) :: _ => 0
  | (_, Restart) :: rest => S (restarts_handled rest)
  | _ :: rest => restarts_handled rest
  end.

Definition has_quit (evs : list (nat * nodemon_event)) : bool :=
  existsb (fun ev => match snd ev with Quit => true | _ => false end) evs.

(** The words of a command line. *)
Definition tokens (line : string) : list string := split_on " " line.


(** ** Sample surroundings, for the examples *)

Definition plain_defaultValue (v : option string) (d : string) : string :=
  default d v.

Definition sample_world : surroundings :=
  Surroundings false true "/proj" "/proj" None plain_defaultValue.

Definition no_transport_world : surroundings :=
  Surroundings false false "/proj" "/proj" None plain_defaultValue.

Definition scenario_D_args : gmap string jsval :=
  <["mock" := JBool true]> (<["port" := JNum 5000]> ∅).


(** ** Notions used in the statements *)

(** The timeouts left after [clearTimeout(h)]. *)
Definition without (h : option nat) (ts : list timeout) : list timeout :=
  match h with
  | None => ts
  | Some h => filter (fun t => negb (handle t =? h)%nat) ts
  end.

(** The channel a call of the relay works with: the open one, or the one it
    opens when a transport exists. *)
Definition channel_for (w : surroundings) (s : proc) : option nat :=
  match ipc s with
  | Some channel => Some channel
  | None => if IpcMessenger w then Some (next_ipc s) else None
  end.

(** The relay's invariant: no timeout is pending, or exactly one, the one
    [ipcTimer] names, which will close the open channel at a later time. *)
Definition idle_inv (s : proc) : Prop :=
  timers s = []
  \/ exists h d channel,
       timers s = [Timeout h d CloseIdleChannel]
       /\ ipcTimer s = Some h /\ ipc s = Some channel /\ clock s < d.

(** The same of a process that has not exited. *)
Definition alive_inv (s : proc) : Prop := exited s = false /\ idle_inv s.

(** The supervisor is at work: the relay's invariant holds, the five
    listeners are registered and the promise is pending. *)
Definition live (s : proc) : Prop :=
  alive_inv s /\ is_watching s = true /\ promise s = Some Pending.

(** What a listener sends. *)
Definition announces (ev : nodemon_event) : list payload :=
  match ev with
  | Restart => [status_ok]
  | Crash => [status_crashed]
  | _ => []
  end.

(** [c] occurs in [s]. *)
Fixpoint has_char (c : ascii) (s : string) : bool :=
  match s with
  | EmptyString => false
  | String a s' => Ascii.eqb a c || has_char c s'
  end.

(** A segment that [normalizeString] passes over: empty, or [.]. *)
Definition is_skipped (x : string) : bool :=
  String.eqb x "" || String.eqb x ".".

(** A segment that [normalizeString] keeps as it is: a name. *)
Definition is_name (x : string) : bool :=
  negb (is_skipped x) && negb (String.eqb x "..").

Definition slash_free (x : string) : bool := negb (has_char "/" x).

(** ** Further notions

    The rest of the module: what [apollo:watch] forwards and what it drops,
    the files [apollo:run] hands to the server, the channel protocol the
    relay follows, and the webpack side with its cache identifier. *)

(** The property names the flattening loop reads. *)
Definition declared_keys : list string :=
  map (fun entry => substr 2 (fst entry)) COMMAND_OPTIONS.


(** The files of the server folder that [run] names in [opts.paths], in the
    order of the object literal. *)
Definition server_files : list string :=
  ["type-defs.js"; "resolvers.js"; "context.js"; "mocks.js"; "pubsub.js";
   "server.js"; "apollo.js"; "engine.js"; "directives.js"].

(** The values of [opts.paths]: each is [api.resolve] of the template string
    [`${baseFolder}/<file>`]. *)
Definition server_paths (w : surroundings) : list string :=
  map (fun file => api_resolve w (baseFolder w +:+ "/" +:+ file)) server_files.

(** A pending timeout of the relay, as opposed to the delayed [run]. *)
Definition is_idle_close (t : timeout) : bool :=
  match action t with
  | CloseIdleChannel => true
  | Run _ => false
  end.

(** An effect on the channel. *)
Definition on_channel (e : effect) : bool :=
  match e with
  | IpcConnect _ | IpcSend _ _ | IpcDisconnect _ => true
  | _ => false
  end.

Definition is_uncaught (e : effect) : bool :=
  match e with
  | Uncaught _ => true
  | _ => false
  end.

(** What went over or happened to the channel, in order. *)
Definition wire (tr : list effect) : list effect :=
  filter (fun e => on_channel e) tr.

(** The exceptions nobody caught. *)
Definition crashes (tr : list effect) : list effect :=
  filter (fun e => is_uncaught e) tr.

(** The messenger's protocol, read along a trace from the channel state
    [open]: a connect needs the channel unset, a send and a disconnect need
    it open and name the open channel, and whatever is sent sits under the
    namespace key. The result is the channel state at the end, or [None]
    when the trace breaks the protocol. *)
Fixpoint channel_protocol (open : option nat) (tr : list effect)
    : option (option nat) :=
  match tr with
  | [] => Some open
  | IpcConnect c :: tr' =>
      match open with
      | None => channel_protocol (Some c) tr'
      | Some _ => None
      end
  | IpcSend c m :: tr' =>
      match open with
      | Some c' =>
          if (c =? c')%nat && String.eqb (msg_key m) ipc_namespace
          then channel_protocol open tr'
          else None
      | None => None
      end
  | IpcDisconnect c :: tr' =>
      match open with
      | Some c' => if (c =? c')%nat then channel_protocol None tr' else None
      | None => None
      end
  | _ :: tr' => channel_protocol open tr'
  end.

(** The relay's invariant in a process that may also hold delayed [run]s:
    with [ipc] unset no close is pending; with [ipc] set exactly one is, the
    one [ipcTimer] names, due within the next 3000 ms. *)
Definition relay_inv (s : proc) : Prop :=
  match ipc s with
  | None => filter (fun t => is_idle_close t) (timers s) = []
  | Some channel =>
      channel < next_ipc s
      /\ exists h d,
           filter (fun t => is_idle_close t) (timers s)
           = [Timeout h d CloseIdleChannel]
           /\ ipcTimer s = Some h
           /\ clock s < d /\ d <= clock s + 3000
  end.

(** All of it: the invariant, no uncaught exception so far, and a trace
    that follows the protocol and ends in the state [ipc] shows. *)
Definition sound (s : proc) : Prop :=
  relay_inv s
  /\ crashes (out s) = []
  /\ channel_protocol None (wire (out s)) = Some (ipc s).

(** The error flag a listener on the channel has last been told: the last
    status object with an [error] key decides. *)
Definition last_error (ps : list payload) : option bool :=
  last (omap p_error ps).

(** The flag the supervisor's events call for: a restart clears it, a crash
    sets it, output leaves it, and nothing after a [quit] counts. *)
Fixpoint flag_after (flag : bool) (evs : list (nat * nodemon_event)) : bool :=
  match evs with
  | [] => flag
  | (_, Quit) :: _ => flag
  | (_, Restart) :: rest => flag_after false rest
  | (_, Crash) :: rest => flag_after true rest
  | _ :: rest => flag_after flag rest
  end.

(** ** The webpack side

    The callback given to [api.chainWebpack] and [generateCacheIdentifier].
    The configuration is the part of webpack-chain's that the callback
    works on: the rules by name, each with its test, its include set and
    its uses by name, all in insertion order. The file system and
    [JSON.parse] are handed in. *)

(** [s] ends in [suffix]. *)
Fixpoint ends_with (s suffix : string) : bool :=
  String.eqb s suffix
  || match s with
     | EmptyString => false
     | String _ s' => ends_with s' suffix
     end.

(** A rule's test: a regular expression of the shape [/\.(a|b|...)$/],
    given by its alternatives, or some other one, given by its source. *)
Inductive file_test : Type :=
| FilesEnding (extensions : list string)
| OtherTest (source : string).

(** [/\.(gql|graphql)$/]. *)
Definition gql_test : file_test := FilesEnding ["gql"; "graphql"].

(** [/\.(vue|(j|t)sx?|gql|graphql)$/]. *)
Definition eslint_test : file_test :=
  FilesEnding ["vue"; "js"; "jsx"; "ts"; "tsx"; "gql"; "graphql"].

(** [re.test(file)] for a test of the first shape. *)
Definition test_matches (t : file_test) (file : string) : option bool :=
  match t with
  | FilesEnding extensions =>
      Some (existsb (fun e => ends_with file ("." +:+ e)) extensions)
  | OtherTest _ => None
  end.

(** The [cacheIdentifier] of an options object: absent, a string, or the
    [NaN] that adding to an absent one gives. *)
Inductive identifier : Type :=
| Absent
| Text (s : string)
| NotANumber.

(** The options of a use: [undefined], or an object, split into its
    [cacheIdentifier] and its other properties. *)
Inductive use_options : Type :=
| NoOptions
| Options (cacheIdentifier : identifier) (others : gmap string jsval).

Record loader_use : Type := LoaderUse {
  loader : option string;
  options : use_options
}.

Record module_rule : Type := ModuleRule {
  test : option file_test;
  include : list string;
  uses : list (string * loader_use)
}.

(** [ChainedMap.get]. *)
Fixpoint chain_get {A} (name : string) (m : list (string * A)) : option A :=
  match m with
  | [] => None
  | (k, v) :: m' => if String.eqb k name then Some v else chain_get name m'
  end.

(** [ChainedMap.set]: an entry keeps its place, a new one goes last. *)
Fixpoint chain_set {A} (name : string) (v : A) (m : list (string * A))
    : list (string * A) :=
  match m with
  | [] => [(name, v)]
  | (k, v') :: m' =>
      if String.eqb k name then (k, v) :: m'
      else (k, v') :: chain_set name v m'
  end.

(** [ChainedSet.add]. *)
Definition chain_add (x : string) (l : list string) : list string :=
  if existsb (String.eqb x) l then l else l ++ [x].

Definition new_rule : module_rule := ModuleRule None [] [].

Definition new_use : loader_use := LoaderUse None NoOptions.

(** [rule.use(name)] followed by the calls [change] stands for. *)
Definition with_use (name : string) (change : loader_use -> loader_use)
    (r : module_rule) : module_rule :=
  ModuleRule (test r) (include r)
    (chain_set name (change (default new_use (chain_get name (uses r))))
               (uses r)).

(** A parsed JSON text, as far as reading a property of it goes. *)
Inductive json : Type :=
| JsonNull
| JsonString (s : string)
| JsonObject (fields : list (string * json))
| JsonOther.

(** What the build runs in: [process.env.NODE_ENV], [options.parallel],
    [api.hasPlugin('eslint')], three calls of [fs] ([None] when the call
    throws) and [JSON.parse] ([None] on a syntax error). A file's
    [mtimeMs] is taken in whole milliseconds, of a size that prints with
    all its digits. *)
Record build : Type := Build {
  NODE_ENV : option string;
  parallel : jsval;
  hasPlugin_eslint : bool;
  existsSync : string -> bool;
  readFileSync : string -> option string;
  statSync_mtimeMs : string -> option Z;
  JSON_parse : string -> option json
}.

(** [graphqlConfig.schemaPath] as [path.join] accepts it: reading a
    property of [null] throws, and so does [path.join] on anything but a
    string. *)
Definition schemaPath_of (graphqlConfig : json) : option string :=
  match graphqlConfig with
  | JsonObject fields =>
      match chain_get "schemaPath" fields with
      | Some (JsonString p) => Some p
      | _ => None
      end
  | _ => None
  end.

(** The function's value and the lines it writes with [console.error]. *)
Definition generateCacheIdentifier (b : build) (context : string)
    : jsval * list string :=
  let graphqlConfigFile := path_join [context; ".graphqlconfig"] in
  if existsSync b graphqlConfigFile then
    match
      text ← readFileSync b graphqlConfigFile;
      graphqlConfig ← JSON_parse b text;
      schemaPath ← schemaPath_of graphqlConfig;
      statSync_mtimeMs b (path_join [context; schemaPath])
    with
    | Some mtimeMs => (JNum mtimeMs, [])
    | None => (JUndefined, ["Invalid .graphqlconfig file"])
    end
  else (JUndefined, []).

(** [process.env.NODE_ENV === 'production' && options.parallel]. *)
Definition useThreads (b : build) : jsval :=
  match NODE_ENV b with
  | Some mode => if String.eqb mode "production" then parallel b
                 else JBool false
  | None => JBool false
  end.

(** The first half of the callback: the rule [gql]. *)
Definition gql_rule (w : surroundings) (b : build) (r : module_rule)
    : module_rule :=
  let cacheDirectory := api_resolve w "node_modules/.cache/cache-loader" in
  let r := ModuleRule (Some gql_test)
             (chain_add (api_resolve w "tests")
                (chain_add (api_resolve w "src") (include r)))
             (uses r) in
  let r := with_use "cache-loader"
             (fun u => LoaderUse (Some "cache-loader")
                         (Options Absent
                            (<["cacheDirectory" := JStr cacheDirectory]> ∅)))
             r in
  let r := if truthy (useThreads b)
           then with_use "thread-loader"
                  (fun u => LoaderUse (Some "thread-loader") (options u)) r
           else r in
  with_use "gql-loader"
    (fun u => LoaderUse (Some "graphql-tag/loader") (options u)) r.

(** [identifier + id] for the [id] that [generateCacheIdentifier] returns,
    a number or [undefined]. *)
Definition extend_identifier (c : identifier) (id : jsval) : identifier :=
  match c with
  | Text s => Text (s +:+ toString id)
  | Absent | NotANumber => NotANumber
  end.

(** How the callback ends: with the configuration changed and some lines
    on the console, or with an exception. *)
Inductive outcome : Type :=
| Configured (config : list (string * module_rule)) (errors : list string)
| Thrown (error : string) (errors : list string).

Definition chainWebpack (w : surroundings) (b : build)
    (config : list (string * module_rule)) : outcome :=
  let config :=
    chain_set "gql"
      (gql_rule w b (default new_rule (chain_get "gql" config))) config in
  match chain_get "eslint" config with
  | Some r =>
      if hasPlugin_eslint b then
        let '(id, errors) := generateCacheIdentifier b (api_resolve w ".") in
        let u := default new_use (chain_get "eslint-loader" (uses r)) in
        match options u with
        | NoOptions => Thrown "TypeError" errors
        | Options c others =>
            let u := LoaderUse (loader u)
                       (Options (extend_identifier c id) others) in
            let r := ModuleRule (Some eslint_test) (include r)
                       (chain_set "eslint-loader" u (uses r)) in
            Configured (chain_set "eslint" r config) errors
        end
      else Configured config []
  | None => Configured config []
  end.

(** The configuration the callback leaves, if it returns. *)
Definition configured (o : outcome) : option (list (string * module_rule)) :=
  match o with
  | Configured config _ => Some config
  | Thrown _ _ => None
  end.

(** The [cacheIdentifier] in the options of [eslint-loader] under the rule
    [eslint]. *)
Definition eslint_identifier (config : list (string * module_rule))
    : option identifier :=
  r ← chain_get "eslint" config;
  u ← chain_get "eslint-loader" (uses r);
  match options u with
  | Options c _ => Some c
  | NoOptions => None
  end.

(** A build whose project has a [.graphqlconfig] pointing at [schema.graphql],
    last changed at [mtimeMs]. *)
Definition sample_build (mtimeMs : Z) : build :=
  {| NODE_ENV := Some "production";
     parallel := JBool true;
     hasPlugin_eslint := true;
     existsSync := fun p => String.eqb p "/proj/.graphqlconfig";
     readFileSync := fun p =>
       if String.eqb p "/proj/.graphqlconfig" then Some "{...}" else None;
     statSync_mtimeMs := fun p =>
       if String.eqb p "/proj/schema.graphql" then Some mtimeMs else None;
     JSON_parse := fun _ =>
       Some (JsonObject [("schemaPath", JsonString "schema.graphql")]) |}.

(** A configuration as the linter plugin leaves it: a rule [eslint] whose
    [eslint-loader] has a cache identifier. *)
Definition sample_config : list (string * module_rule) :=
  [("eslint",
    ModuleRule (Some (OtherTest "\.(vue|(j|t)sx?)$")) []
      [("eslint-loader",
        LoaderUse (Some "eslint-loader")
          (Options (Text "abc") (<["cache" := JBool true]> ∅)))])].

(** The build is a production build with [parallel] set. *)
Definition threaded (b : build) : bool :=
  match NODE_ENV b with
  | Some mode => String.eqb mode "production" && truthy (parallel b)
  | None => false
  end.

(** What the callback wrote with [console.error]. *)
Definition console (o : outcome) : list string :=
  match o with
  | Configured _ errors => errors
  | Thrown _ errors => errors
  end.

(** * Properties *)

(** ** A few runs *)

Example join_normalizes :
  path_join ["../x/./y/../"; "live"] = "../x/live"
  /\ path_join [""; "live"] = "live"
  /\ path_join ["/"; "live"] = "/live".
Proof. repeat split; vm_compute; reflexivity. Qed.

Example resolve_climbs :
  path_resolve "/home/u" ["a/../../.."; "../b/"] = "/b"
  /\ path_resolve "/home/u" [""; ""] = "/home/u"
  /\ path_resolve "/home/u" ["/srv/app"; "./apollo-server"]
     = "/srv/app/apollo-server".
Proof. repeat split; vm_compute; reflexivity. Qed.

Example exec_scenario_D :
  exec_string "npm" scenario_D_args
  = "npm run apollo:run --delay --mock --port 5000".
Proof. vm_compute. reflexivity. Qed.

(** Start, a restart, a crash, three idle seconds, a line of output, quit;
    the restart that comes after the quit is not heard. *)
Example a_watch_session :
  out (supervise sample_world
         [(0, Restart); (2999, Crash); (3000, Stdout ["a"; "b"]); (0, Quit);
          (0, Restart)]
         (apollo_watch sample_world ∅ (fresh_proc ∅)))
  = [NodemonStart (watch_config sample_world ∅);
     IpcConnect 0; IpcSend 0 (wrap status_ok);
     ConsoleLog "⏳  GraphQL API is restarting...";
     IpcSend 0 (wrap status_ok);
     ConsoleLog "💥  GraphQL API crashed!";
     ConsoleLog "   Waiting for changes...";
     IpcSend 0 (wrap status_crashed);
     IpcDisconnect 0;
     ConsoleLog "a b";
     ProcessExit].
Proof. vm_compute. reflexivity. Qed.

(** Without [IpcMessenger] the same session only logs. *)
Example a_silent_session :
  out (supervise no_transport_world
         [(0, Restart); (2999, Crash); (0, Quit)]
         (apollo_watch no_transport_world ∅ (fresh_proc ∅)))
  = [NodemonStart (watch_config no_transport_world ∅);
     ConsoleLog "⏳  GraphQL API is restarting...";
     ConsoleLog "💥  GraphQL API crashed!";
     ConsoleLog "   Waiting for changes...";
     ProcessExit].
Proof. vm_compute. reflexivity. Qed.

(** A delayed child: nothing for 299 ms, then the server starts; once it
    listens the address goes out, and three idle seconds later the channel
    is closed. *)
Example a_child_session :
  let child := <["delay" := JBool true]> scenario_D_args in
  let s := apollo_run sample_world child (fresh_proc ∅) in
  out (elapse sample_world 299 s) = []
  /\ out (run_inputs sample_world
            [Elapse 300; ServerListening; Elapse 3000] s)
     = [EnvAssign "VUE_APP_GRAPHQL_PORT" "5000";
        ServerStart (ServerOpts (JNum 5000) "/graphql" "/graphql" None);
        IpcConnect 0;
        IpcSend 0 (wrap (ready_payload (JNum 5000) "/graphql"));
        IpcDisconnect 0].
Proof. split; vm_compute; reflexivity. Qed.

(** ** Argument flattening *)

Lemma flatArgs_step_app (args : gmap string jsval) (acc : list jsval)
    (key : string) :
  flatArgs_step args acc key = acc ++ contribution args key.
Proof.
  unfold flatArgs_step, contribution.
  destruct (args !! substr 2 key) as [value|]; [|by rewrite app_nil_r].
  destruct (not_strictly_true value); [|done].
  by rewrite <- app_assoc.
Qed.

Lemma flatArgs_loop (args : gmap string jsval) (keys : list string)
    (acc : list jsval) :
  foldl (flatArgs_step args) acc keys
  = acc ++ concat (map (contribution args) keys).
Proof.
  revert acc. induction keys as [|key keys IH]; intros acc; simpl.
  - by rewrite app_nil_r.
  - rewrite IH, flatArgs_step_app. by rewrite <- app_assoc.
Qed.

Lemma contribution_contributes (args : gmap string jsval) (key : string) :
  contributes args key (contribution args key).
Proof.
  unfold contributes, contribution.
  destruct (args !! substr 2 key) as [[| |[]| | |]|]; reflexivity.
Qed.

(** C1. The flattened arguments are the contributions of [--mock],
    [--enable-engine], [--delay] and [--port], in this declared order; a flag
    absent from [args] adds nothing, a flag whose value is [true] adds its
    name, any other value adds the name followed by the value. For
    [{mock: true, port: 5000}] the list is [--mock], [--port], [5000], which
    the command line prints as the words "--mock", "--port", "5000"; with
    the port given as the string "5000" the list holds that string. *)
Theorem flatArgs_declared_order (args : gmap string jsval) :
  map fst COMMAND_OPTIONS = ["--mock"; "--enable-engine"; "--delay"; "--port"]
  /\ (exists mock engine delay port,
        flatArgs args = mock ++ engine ++ delay ++ port
        /\ contributes args "--mock" mock
        /\ contributes args "--enable-engine" engine
        /\ contributes args "--delay" delay
        /\ contributes args "--port" port)
  /\ flatArgs scenario_D_args = [JStr "--mock"; JStr "--port"; JNum 5000]
  /\ map join_elem (flatArgs scenario_D_args) = ["--mock"; "--port"; "5000"]
  /\ flatArgs (<["mock" := JBool true]> (<["port" := JStr "5000"]> ∅))
     = [JStr "--mock"; JStr "--port"; JStr "5000"].
Proof.
  split; [reflexivity|]. split.
  - exists (contribution args "--mock"), (contribution args "--enable-engine"),
      (contribution args "--delay"), (contribution args "--port").
    split.
    + unfold flatArgs. rewrite flatArgs_loop. simpl.
      by rewrite app_nil_r.
    + repeat split; apply contribution_contributes.
  - repeat split; vm_compute; reflexivity.
Qed.

(** ** Port resolution *)


Lemma env_or_other (e : gmap string string) (k k' v d : string) :
  k <> k' -> env_or (<[k := v]> e) k' d = env_or e k' d.
Proof. intros Hne. unfold env_or. by rewrite lookup_insert_ne. Qed.

Lemma run_unfold (w : surroundings) (args : gmap string jsval) (s : proc) :
  let chosen := resolve_port args (env s) in
  let path := env_or (env s) "VUE_APP_GRAPHQL_PATH" "/graphql" in
  exists opts,
    port opts = chosen /\ graphqlPath opts = path
    /\ out (run w args s)
       = out s ++ [EnvAssign "VUE_APP_GRAPHQL_PORT" (toString chosen);
                   ServerStart opts]
    /\ env (run w args s)
       = <["VUE_APP_GRAPHQL_PORT" := toString chosen]> (env s)
    /\ server_cb (run w args s) = Some (chosen, path)
    /\ ipc (run w args s) = ipc s
    /\ next_ipc (run w args s) = next_ipc s
    /\ exited (run w args s) = exited s.
Proof.
  intros chosen path. unfold run. simpl.
  rewrite !env_or_other by done.
  eexists (ServerOpts _ _ _ _). repeat split; simpl; try reflexivity.
  by rewrite <- app_assoc.
Qed.


(** ** The status relay *)

Lemma sendIpcMessage_fields (w : surroundings) (m : payload) (s : proc) :
  match channel_for w s with
  | None => sendIpcMessage w m s = s
  | Some channel =>
      let s' := sendIpcMessage w m s in
      ipc s' = Some channel
      /\ out s' = out s
                  ++ match ipc s with
                     | Some _ => []
                     | None => [IpcConnect channel]
                     end
                  ++ [IpcSend channel (wrap m)]
      /\ timers s' = without (ipcTimer s) (timers s)
                     ++ [Timeout (next_timer s) (clock s + 3000)
                                 CloseIdleChannel]
      /\ ipcTimer s' = Some (next_timer s)
      /\ next_timer s' = S (next_timer s)
      /\ clock s' = clock s
      /\ env s' = env s
      /\ server_cb s' = server_cb s
      /\ handlers s' = handlers s
      /\ promise s' = promise s
      /\ exited s' = exited s
  end.
Proof.
  destruct s as [clk ts nt [ch|] ni it e cb hs pr ex o];
    unfold channel_for, sendIpcMessage; simpl.
  - destruct it; simpl; repeat split; reflexivity.
  - destruct (IpcMessenger w); simpl; [|reflexivity].
    destruct it; simpl; repeat split; try reflexivity;
      by rewrite <- app_assoc.
Qed.

Lemma sendIpcMessage_sent (w : surroundings) (m : payload) (s : proc) :
  IpcMessenger w = true ->
  sent (out (sendIpcMessage w m s)) = sent (out s) ++ [m].
Proof.
  intros Hw. pose proof (sendIpcMessage_fields w m s) as H.
  unfold channel_for in H. rewrite Hw in H.
  destruct (ipc s) as [ch|]; destruct H as (_ & Hout & _); rewrite Hout;
    unfold sent; rewrite !omap_app; simpl; by rewrite ?app_nil_r.
Qed.

(** ** The ready message *)




(** ** Time and the idle timer *)

Ltac unfold_updates :=
  unfold set_clock, set_timers, set_ipc, set_ipcTimer, set_env,
    set_server_cb, set_handlers, set_promise, set_exited, emit, new_ipc;
  simpl.

Lemma set_clock_same (s : proc) : set_clock (clock s) s = s.
Proof. by destruct s. Qed.

Lemma none_due (now : nat) (ts : list timeout) :
  Forall (fun t => now < due t) ts ->
  filter (is_due now) ts = []
  /\ filter (fun t => negb (is_due now t)) ts = ts.
Proof.
  induction 1 as [|t ts Ht _ [IH1 IH2]]; [done|].
  assert (Hd : is_due now t = false) by (apply Nat.leb_gt; lia).
  split.
  - rewrite filter_cons_False; [done|]. rewrite Hd. intros [].
  - rewrite filter_cons_True; [by rewrite IH2|]. rewrite Hd. exact I.
Qed.

Lemma tick_quiet (w : surroundings) (s : proc) :
  exited s = false ->
  Forall (fun t => S (clock s) < due t) (timers s) ->
  tick w s = set_clock (S (clock s)) s.
Proof.
  intros Hex Hts. unfold tick. rewrite Hex.
  destruct (none_due _ _ Hts) as [Hnone Hall].
  rewrite Hnone, Hall. simpl. by destruct s.
Qed.

Lemma elapse_S (w : surroundings) (n : nat) (s : proc) :
  elapse w (S n) s = tick w (elapse w n s).
Proof. reflexivity. Qed.

Lemma elapse_add (w : surroundings) (a b : nat) (s : proc) :
  elapse w (a + b) s = elapse w b (elapse w a s).
Proof.
  unfold elapse. rewrite Nat.add_comm. apply Nat.iter_add.
Qed.

Lemma elapse_exited (w : surroundings) (n : nat) (s : proc) :
  exited s = true -> elapse w n s = s.
Proof.
  intros Hex. induction n as [|n IH]; [done|].
  rewrite elapse_S, IH. unfold tick. by rewrite Hex.
Qed.

Lemma dispatch_exited (w : surroundings) (ev : nodemon_event) (s : proc) :
  exited s = true -> dispatch w ev s = s.
Proof.
  intros Hex. unfold dispatch.
  induction (handlers s) as [|name names IH]; [done|].
  simpl. by rewrite Hex.
Qed.

Lemma elapse_quiet (w : surroundings) (n : nat) (s : proc) :
  exited s = false ->
  Forall (fun t => clock s + n < due t) (timers s) ->
  elapse w n s = set_clock (clock s + n) s.
Proof.
  intros Hex. induction n as [|n IH]; intros Hts.
  - rewrite Nat.add_0_r. by rewrite set_clock_same.
  - assert (Hn : Forall (fun t => clock s + n < due t) (timers s)).
    { eapply Forall_impl; [exact Hts|]. simpl. intros t Ht. lia. }
    rewrite elapse_S, (IH Hn).
    assert (Hq : Forall (fun t => S (clock (set_clock (clock s + n) s)) < due t)
                   (timers (set_clock (clock s + n) s))).
    { eapply Forall_impl; [exact Hts|]. simpl. intros t Ht. lia. }
    rewrite (tick_quiet w (set_clock (clock s + n) s) Hex Hq).
    destruct s; unfold_updates; f_equal; lia.
Qed.

Lemma tick_close (w : surroundings) (s : proc) (h channel : nat) :
  exited s = false ->
  timers s = [Timeout h (S (clock s)) CloseIdleChannel] ->
  ipc s = Some channel ->
  tick w s
  = set_ipc None (emit (IpcDisconnect channel)
                    (set_timers [] (set_clock (S (clock s)) s))).
Proof.
  intros Hex Hts Hipc. unfold tick. rewrite Hex, Hts.
  rewrite !filter_cons, !filter_nil. unfold is_due. simpl due.
  rewrite Nat.leb_refl. simpl. rewrite Hex, Hipc. reflexivity.
Qed.

Lemma elapse_close (w : surroundings) (n k : nat) (s : proc) (h channel : nat) :
  exited s = false ->
  timers s = [Timeout h (clock s + S k) CloseIdleChannel] ->
  ipc s = Some channel ->
  S k <= n ->
  elapse w n s
  = set_ipc None (emit (IpcDisconnect channel)
                    (set_timers [] (set_clock (clock s + n) s))).
Proof.
  intros Hex Hts Hipc Hle.
  replace n with (k + (1 + (n - S k))) by lia.
  rewrite !elapse_add.
  rewrite (elapse_quiet w k s Hex)
    by (rewrite Hts; repeat constructor; simpl; lia).
  change (elapse w 1 ?x) with (tick w x).
  rewrite (tick_close w _ h channel); simpl; try done;
    [|rewrite Hts; f_equal; f_equal; lia].
  rewrite elapse_quiet; simpl; [|done|constructor].
  destruct s; unfold_updates; f_equal; lia.
Qed.

Lemma fresh_proc_alive (e : gmap string string) : alive_inv (fresh_proc e).
Proof. split; [done|by left]. Qed.

Lemma without_own_timer (s : proc) :
  idle_inv s -> without (ipcTimer s) (timers s) = [].
Proof.
  intros [Hts|(h & d & ch & Hts & Hit & _)]; rewrite Hts.
  - by destruct (ipcTimer s).
  - rewrite Hit. simpl. rewrite filter_cons_False, filter_nil; [done|].
    simpl. rewrite Nat.eqb_refl. intros [].
Qed.

Lemma sendIpcMessage_alive (w : surroundings) (m : payload) (s : proc) :
  alive_inv s -> alive_inv (sendIpcMessage w m s).
Proof.
  intros [Hex Hinv]. pose proof (sendIpcMessage_fields w m s) as H.
  destruct (channel_for w s) as [ch|]; [|by rewrite H].
  destruct H as (Hipc & _ & Hts & Hit & _ & Hclk & _ & _ & _ & _ & Hex').
  split; [by rewrite Hex'|]. right.
  exists (next_timer s), (clock s + 3000), ch.
  rewrite Hts, without_own_timer by done. rewrite Hclk.
  repeat split; try done. lia.
Qed.

Lemma tick_alive (w : surroundings) (s : proc) :
  alive_inv s -> alive_inv (tick w s).
Proof.
  intros [Hex [Hts|(h & d & ch & Hts & Hit & Hipc & Hlt)]].
  - rewrite tick_quiet by (done || by rewrite Hts).
    split; [done|by left].
  - destruct (decide (d = S (clock s))) as [->|Hne].
    + rewrite (tick_close w s h ch) by done. split; [done|by left].
    + rewrite tick_quiet by (done || (rewrite Hts; repeat constructor; simpl; lia)).
      split; [done|]. right. exists h, d, ch. repeat split; try done.
      simpl. lia.
Qed.

Lemma elapse_alive (w : surroundings) (n : nat) (s : proc) :
  alive_inv s -> alive_inv (elapse w n s).
Proof.
  intros H. induction n as [|n IH]; [done|].
  rewrite elapse_S. by apply tick_alive.
Qed.

Lemma notify_calls_alive (w : surroundings) (calls : list (nat * payload))
    (s : proc) :
  alive_inv s -> alive_inv (notify_calls w calls s).
Proof.
  revert s. induction calls as [|[gap m] calls IH]; intros s Hs; [done|].
  simpl. apply IH. by apply sendIpcMessage_alive, elapse_alive.
Qed.

(** The idle timer from any state of the relay. *)
Lemma idle_timer_from (w : surroundings) (m : payload) (s : proc) :
  IpcMessenger w = true ->
  alive_inv s ->
  let s1 := sendIpcMessage w m s in
  exists channel h,
    ipc s1 = Some channel
    /\ ipcTimer s1 = Some h
    /\ timers s1 = [Timeout h (clock s1 + 3000) CloseIdleChannel]
    /\ (forall d, 3000 <= d ->
         ipc (elapse w d s1) = None
         /\ out (elapse w d s1) = out s1 ++ [IpcDisconnect channel]
         /\ timers (elapse w d s1) = [])
    /\ (forall d, d < 3000 -> elapse w d s1 = set_clock (clock s1 + d) s1)
    /\ (forall d m', d < 3000 ->
         let s2 := sendIpcMessage w m' (elapse w d s1) in
         ipc s2 = Some channel
         /\ out s2 = out s1 ++ [IpcSend channel (wrap m')]
         /\ exists h', ipcTimer s2 = Some h'
                       /\ timers s2 = [Timeout h' (clock s1 + d + 3000)
                                               CloseIdleChannel]).
Proof.
  intros Hw [Hex Hinv] s1.
  pose proof (sendIpcMessage_fields w m s) as H. fold s1 in H.
  assert (Hch : exists ch, channel_for w s = Some ch).
  { unfold channel_for. rewrite Hw. destruct (ipc s); eauto. }
  destruct Hch as [ch Hch]. rewrite Hch in H.
  destruct H as (Hipc & _ & Hts & Hit & _ & Hclk & _ & _ & _ & _ & Hex1).
  rewrite without_own_timer in Hts by done. simpl in Hts.
  rewrite <- Hclk in Hts. rewrite Hex in Hex1.
  assert (Hwait : forall d, d < 3000 ->
            elapse w d s1 = set_clock (clock s1 + d) s1).
  { intros d Hd. apply elapse_quiet; [done|].
    rewrite Hts. repeat constructor. simpl. lia. }
  exists ch, (next_timer s).
  split; [done|]. split; [done|]. split; [done|]. split; [|split].
  - intros d Hd.
    rewrite (elapse_close w d 2999 s1 (next_timer s) ch) by (done || lia).
    repeat split.
  - exact Hwait.
  - intros d m' Hd. rewrite (Hwait d) by done.
    pose proof (sendIpcMessage_fields w m' (set_clock (clock s1 + d) s1)) as Hf.
    unfold channel_for in Hf. simpl in Hf. rewrite Hipc in Hf.
    destruct Hf as (Hipc' & Hout' & Hts' & Hit' & _).
    split; [done|]. split; [done|].
    exists (next_timer s1). split; [done|].
    rewrite Hts'. simpl. rewrite Hit, Hts. simpl.
    rewrite filter_cons_False, filter_nil; [done|].
    simpl. rewrite Nat.eqb_refl. intros [].
Qed.

(** C3. After any sequence of calls of the relay, with a transport at hand,
    one more call leaves exactly one timeout pending, the one in [ipcTimer],
    due 3000 ms later. If 3000 ms or more pass without a call the channel is
    disconnected and [ipc] unset. While less than 3000 ms have passed (2999,
    say) nothing happens, and a call made then sends on the same channel,
    with no disconnect, and moves the timeout to 3000 ms after itself. *)
Theorem idle_timer_resets (w : surroundings) (e : gmap string string)
    (calls : list (nat * payload)) (m : payload) :
  IpcMessenger w = true ->
  let s1 := sendIpcMessage w m (notify_calls w calls (fresh_proc e)) in
  exists channel h,
    ipc s1 = Some channel
    /\ ipcTimer s1 = Some h
    /\ timers s1 = [Timeout h (clock s1 + 3000) CloseIdleChannel]
    /\ (forall d, 3000 <= d ->
         ipc (elapse w d s1) = None
         /\ out (elapse w d s1) = out s1 ++ [IpcDisconnect channel]
         /\ timers (elapse w d s1) = [])
    /\ (forall d, d < 3000 -> elapse w d s1 = set_clock (clock s1 + d) s1)
    /\ (forall d m', d < 3000 ->
         let s2 := sendIpcMessage w m' (elapse w d s1) in
         ipc s2 = Some channel
         /\ out s2 = out s1 ++ [IpcSend channel (wrap m')]
         /\ exists h', ipcTimer s2 = Some h'
                       /\ timers s2 = [Timeout h' (clock s1 + d + 3000)
                                               CloseIdleChannel]).
Proof.
  intros Hw. apply idle_timer_from; [done|].
  apply notify_calls_alive, fresh_proc_alive.
Qed.

(** ** Lazy opening, and no transport *)

Lemma sendIpcMessage_no_transport (w : surroundings) (m : payload) (s : proc) :
  IpcMessenger w = false -> ipc s = None -> sendIpcMessage w m s = s.
Proof.
  intros Hw Hipc. pose proof (sendIpcMessage_fields w m s) as H.
  unfold channel_for in H. by rewrite Hipc, Hw in H.
Qed.

Lemma fire_unset (w : surroundings) (cb : callback) (s : proc) :
  ipc s = None -> ipc (fire w cb s) = None.
Proof.
  intros Hipc. destruct cb as [|args]; unfold fire.
  - by rewrite Hipc.
  - destruct (run_unfold w args s) as (_ & _ & _ & _ & _ & _ & Hi & _).
    by rewrite Hi.
Qed.

Lemma fire_all_unset (w : surroundings) (ready : list timeout) (s : proc) :
  ipc s = None ->
  ipc (foldl (fun s t => if exited s then s else fire w (action t) s) s ready)
  = None.
Proof.
  revert s. induction ready as [|t ready IH]; intros s Hipc; [done|].
  simpl. apply IH. destruct (exited s); [done|]. by apply fire_unset.
Qed.

Lemma tick_unset (w : surroundings) (s : proc) :
  ipc s = None -> ipc (tick w s) = None.
Proof.
  intros Hipc. unfold tick. destruct (exited s); [done|].
  by apply fire_all_unset.
Qed.

Lemma elapse_unset (w : surroundings) (n : nat) (s : proc) :
  ipc s = None -> ipc (elapse w n s) = None.
Proof.
  intros Hipc. induction n as [|n IH]; [done|].
  rewrite elapse_S. by apply tick_unset.
Qed.

Lemma on_event_unset (w : surroundings) (ev : nodemon_event) (s : proc) :
  IpcMessenger w = false -> ipc s = None -> ipc (on_event w ev s) = None.
Proof.
  intros Hw Hipc.
  destruct ev; simpl; rewrite ?sendIpcMessage_no_transport by done; try done.
  unfold resolve. by destruct (promise s) as [[]|].
Qed.

Lemma dispatch_unset (w : surroundings) (ev : nodemon_event) (s : proc) :
  IpcMessenger w = false -> ipc s = None -> ipc (dispatch w ev s) = None.
Proof.
  intros Hw. unfold dispatch. generalize (handlers s) as names.
  intros names. revert s.
  induction names as [|name names IH]; intros s Hipc; [done|].
  simpl. apply IH. destruct (exited s); [done|].
  destruct (String.eqb name (event_name ev)); [|done].
  by apply on_event_unset.
Qed.

Lemma step_unset (w : surroundings) (s : proc) (i : input) :
  IpcMessenger w = false -> ipc s = None -> ipc (step w s i) = None.
Proof.
  intros Hw Hipc. unfold step. destruct (exited s); [done|].
  destruct i as [args|args|ms|ev| |m].
  - unfold apollo_watch. simpl.
    rewrite sendIpcMessage_no_transport by done. done.
  - unfold apollo_run. destruct (truthy _); [done|].
    destruct (run_unfold w args s) as (_ & _ & _ & _ & _ & _ & Hi & _).
    by rewrite Hi.
  - by apply elapse_unset.
  - by apply dispatch_unset.
  - unfold server_ready. destruct (server_cb s) as [[p g]|]; [|done].
    by rewrite sendIpcMessage_no_transport.
  - by rewrite sendIpcMessage_no_transport.
Qed.

Lemma run_inputs_unset (w : surroundings) (ins : list input) (s : proc) :
  IpcMessenger w = false -> ipc s = None -> ipc (run_inputs w ins s) = None.
Proof.
  intros Hw. revert s. induction ins as [|i ins IH]; intros s Hipc; [done|].
  simpl. apply IH. by apply step_unset.
Qed.

(** C5. In any state a process can reach, a call of the relay does this.
    With a transport: if the channel is unset, a messenger is made and
    connected first and the message is sent on it; if the channel is open
    the message goes out on it and nothing is opened. Without a transport
    the call leaves the process as it was: nothing sent, no state changed,
    no error. *)
Theorem relay_opens_lazily (w : surroundings) (e : gmap string string)
    (ins : list input) (m : payload) :
  let s := run_inputs w ins (fresh_proc e) in
  let s' := sendIpcMessage w m s in
  if IpcMessenger w then
    match ipc s with
    | None =>
        ipc s' = Some (next_ipc s)
        /\ out s' = out s ++ [IpcConnect (next_ipc s);
                              IpcSend (next_ipc s) (wrap m)]
    | Some channel =>
        ipc s' = Some channel
        /\ out s' = out s ++ [IpcSend channel (wrap m)]
    end
  else s' = s.
Proof.
  intros s s'. pose proof (sendIpcMessage_fields w m s) as H. fold s' in H.
  unfold channel_for in H.
  destruct (IpcMessenger w) eqn:Hw.
  - destruct (ipc s) as [ch|]; destruct H as (Hipc & Hout & _); by split.
  - assert (Hipc : ipc s = None) by (by apply run_inputs_unset).
    by rewrite Hipc in H.
Qed.

(** ** The supervisor *)

Lemma sent_app (a b : list effect) : sent (a ++ b) = sent a ++ sent b.
Proof. apply omap_app. Qed.

Lemma tick_alive_cases (w : surroundings) (s : proc) :
  alive_inv s ->
  tick w s = set_clock (S (clock s)) s
  \/ exists channel,
       tick w s = set_ipc None (emit (IpcDisconnect channel)
                                  (set_timers [] (set_clock (S (clock s)) s))).
Proof.
  intros [Hex [Hts|(h & d & ch & Hts & Hit & Hipc & Hlt)]].
  - left. apply tick_quiet; [done|by rewrite Hts].
  - destruct (decide (d = S (clock s))) as [->|Hne].
    + right. exists ch. by apply (tick_close w s h ch).
    + left. apply tick_quiet; [done|].
      rewrite Hts. repeat constructor. simpl. lia.
Qed.

Lemma elapse_alive_fields (w : surroundings) (n : nat) (s : proc) :
  alive_inv s ->
  handlers (elapse w n s) = handlers s
  /\ promise (elapse w n s) = promise s
  /\ exited (elapse w n s) = false
  /\ sent (out (elapse w n s)) = sent (out s).
Proof.
  intros Hs. induction n as [|n (Hh & Hp & Hx & Ho)].
  - destruct Hs as [Hex _]. by repeat split.
  - rewrite elapse_S.
    destruct (tick_alive_cases w (elapse w n s)) as [->|[ch ->]];
      [by apply elapse_alive| |]; simpl; repeat split; try done.
    rewrite sent_app, Ho. simpl. apply app_nil_r.
Qed.

Lemma elapse_live (w : surroundings) (n : nat) (s : proc) :
  live s -> live (elapse w n s).
Proof.
  intros (Ha & Hw & Hp).
  destruct (elapse_alive_fields w n s Ha) as (Hh & Hp' & Hx & _).
  repeat split.
  - rewrite Hx. done.
  - by apply elapse_alive.
  - unfold is_watching in *. by rewrite Hh, Hx, (proj1 Ha) in *.
  - by rewrite Hp'.
Qed.

Lemma watching_dispatch (w : surroundings) (ev : nodemon_event) (s : proc) :
  is_watching s = true -> dispatch w ev s = on_event w ev s.
Proof.
  unfold is_watching, dispatch. intros H.
  apply andb_true_iff in H as [Hex H]. apply negb_true_iff in Hex.
  apply bool_decide_eq_true in H. rewrite H.
  destruct ev; simpl; rewrite ?Hex;
    repeat match goal with
           | |- context [if exited ?x then _ else _] =>
               destruct (exited x) eqn:?
           end; try reflexivity; simpl in *; congruence.
Qed.


Lemma sendIpcMessage_keeps (w : surroundings) (m : payload) (s : proc) :
  handlers (sendIpcMessage w m s) = handlers s
  /\ promise (sendIpcMessage w m s) = promise s
  /\ exited (sendIpcMessage w m s) = exited s.
Proof.
  pose proof (sendIpcMessage_fields w m s) as H.
  destruct (channel_for w s); [|by rewrite H].
  destruct H as (_ & _ & _ & _ & _ & _ & _ & _ & Hh & Hp & Hx). done.
Qed.

Lemma alive_inv_emit (e : effect) (s : proc) :
  alive_inv s -> alive_inv (emit e s).
Proof. by destruct s. Qed.

Lemma is_watching_send (w : surroundings) (m : payload) (s : proc) :
  is_watching (sendIpcMessage w m s) = is_watching s.
Proof.
  destruct (sendIpcMessage_keeps w m s) as (Hh & _ & Hx).
  unfold is_watching. by rewrite Hh, Hx.
Qed.

Lemma on_event_live (w : surroundings) (ev : nodemon_event) (s : proc) :
  live s -> ev <> Quit -> live (on_event w ev s).
Proof.
  intros (Ha & Hw & Hp) Hev. destruct ev; simpl; try done.
  - split; [by apply sendIpcMessage_alive, alive_inv_emit|].
    rewrite is_watching_send.
    destruct (sendIpcMessage_keeps w status_ok
                (emit (ConsoleLog "⏳  GraphQL API is restarting...") s))
      as (_ & -> & _). done.
  - split; [by apply sendIpcMessage_alive, alive_inv_emit, alive_inv_emit|].
    rewrite is_watching_send.
    destruct (sendIpcMessage_keeps w status_crashed
                (emit (ConsoleLog "   Waiting for changes...")
                   (emit (ConsoleLog "💥  GraphQL API crashed!") s)))
      as (_ & -> & _). done.
Qed.

Lemma on_event_sent (w : surroundings) (ev : nodemon_event) (s : proc) :
  IpcMessenger w = true ->
  sent (out (on_event w ev s)) = sent (out s) ++ announces ev.
Proof.
  intros Hw. destruct ev; simpl.
  - rewrite sendIpcMessage_sent by done. simpl. by rewrite sent_app, app_nil_r.
  - rewrite sendIpcMessage_sent by done. simpl.
    by rewrite !sent_app, !app_nil_r.
  - by rewrite sent_app.
  - by rewrite sent_app.
  - unfold resolve. destruct (promise s) as [[]|]; simpl; by rewrite sent_app.
Qed.

Lemma on_event_quit (w : surroundings) (s : proc) :
  promise s = Some Pending ->
  exited (on_event w Quit s) = true
  /\ promise (on_event w Quit s) = Some Fulfilled.
Proof. intros Hp. simpl. unfold resolve. by rewrite Hp. Qed.

Lemma quit_or_not (ev : nodemon_event) : ev = Quit \/ ev <> Quit.
Proof. destruct ev; (by left) || (by right). Qed.

Lemma supervise_exited (w : surroundings) (evs : list (nat * nodemon_event))
    (s : proc) :
  exited s = true -> supervise w evs s = s.
Proof.
  intros Hex. induction evs as [|[gap ev] evs IH]; [done|].
  simpl. rewrite elapse_exited by done.
  by rewrite dispatch_exited.
Qed.

Lemma supervise_cons (w : surroundings) (gap : nat) (ev : nodemon_event)
    (evs : list (nat * nodemon_event)) (s : proc) :
  supervise w ((gap, ev) :: evs) s
  = supervise w evs (dispatch w ev (elapse w gap s)).
Proof. reflexivity. Qed.

(** A run of the supervisor from a state at work: it is still at work if no
    [quit] came, and has exited with the promise fulfilled if one did. *)
Lemma supervise_live (w : surroundings) (evs : list (nat * nodemon_event))
    (s : proc) :
  live s ->
  if has_quit evs
  then exited (supervise w evs s) = true
       /\ promise (supervise w evs s) = Some Fulfilled
  else live (supervise w evs s).
Proof.
  revert s. induction evs as [|[gap ev] evs IH]; intros s Hs; [done|].
  rewrite supervise_cons.
  pose proof (elapse_live w gap s Hs) as Hs1.
  rewrite (watching_dispatch w ev) by apply Hs1.
  destruct (quit_or_not ev) as [->|Hev].
  - destruct (on_event_quit w (elapse w gap s)) as [Hx Hp]; [apply Hs1|].
    rewrite supervise_exited by done. done.
  - pose proof (on_event_live w ev _ Hs1 Hev) as Hs2.
    specialize (IH _ Hs2).
    replace (has_quit ((gap, ev) :: evs)) with (has_quit evs); [done|].
    unfold has_quit. simpl. by destruct ev.
Qed.

(** The status objects a run of the supervisor adds. *)
Lemma supervise_sent (w : surroundings) (evs : list (nat * nodemon_event))
    (s : proc) :
  IpcMessenger w = true -> live s ->
  length (filter (fun m => m = status_ok) (sent (out (supervise w evs s))))
  = length (filter (fun m => m = status_ok) (sent (out s)))
    + restarts_handled evs.
Proof.
  intros Hw. revert s.
  induction evs as [|[gap ev] evs IH]; intros s Hs; [simpl; lia|].
  rewrite supervise_cons.
  pose proof (elapse_live w gap s Hs) as Hs1.
  destruct (elapse_alive_fields w gap s (proj1 Hs)) as (_ & _ & _ & Ho).
  rewrite (watching_dispatch w ev) by apply Hs1.
  destruct (quit_or_not ev) as [->|Hev].
  - destruct (on_event_quit w (elapse w gap s)) as [Hx Hp]; [apply Hs1|].
    rewrite supervise_exited by done.
    rewrite on_event_sent by done. rewrite Ho. simpl.
    rewrite app_nil_r. lia.
  - rewrite IH by (by apply on_event_live).
    rewrite on_event_sent by done. rewrite Ho.
    rewrite filter_app, length_app.
    destruct ev; simpl; try done; rewrite ?filter_nil; simpl; lia.
Qed.

Lemma apollo_watch_live (w : surroundings) (args : gmap string jsval)
    (e : gmap string string) :
  live (apollo_watch w args (fresh_proc e)).
Proof.
  unfold apollo_watch.
  set (s := emit (NodemonStart (watch_config w args))
              (set_promise (Some Pending) (fresh_proc e))).
  assert (Hs : alive_inv s) by (split; [done|by left]).
  pose proof (sendIpcMessage_alive w status_ok s Hs) as [Hx Hinv].
  destruct (sendIpcMessage_keeps w status_ok s) as (Hh & Hp & _).
  split; [by split|]. split.
  - unfold is_watching. simpl. rewrite Hx, Hh. reflexivity.
  - simpl. by rewrite Hp.
Qed.

Lemma apollo_watch_out (w : surroundings) (args : gmap string jsval)
    (e : gmap string string) :
  IpcMessenger w = true ->
  out (apollo_watch w args (fresh_proc e))
  = [NodemonStart (watch_config w args); IpcConnect 0;
     IpcSend 0 (wrap status_ok)].
Proof.
  intros Hw. unfold apollo_watch, sendIpcMessage. simpl. by rewrite Hw.
Qed.

(** C7. The promise of [apollo:watch] starts pending. After any run of
    nodemon events it is fulfilled if a [quit] was among them and pending
    otherwise, whatever else came (restarts, crashes, output) and however
    much time passed; it is never rejected. The process exits with the
    [quit] and not before. *)
Theorem promise_settles_on_quit_only (w : surroundings)
    (e : gmap string string) (args : gmap string jsval)
    (evs : list (nat * nodemon_event)) :
  let s0 := apollo_watch w args (fresh_proc e) in
  let s := supervise w evs s0 in
  promise s0 = Some Pending
  /\ promise s = Some (if has_quit evs then Fulfilled else Pending)
  /\ promise s <> Some Rejected
  /\ exited s = has_quit evs.
Proof.
  intros s0 s.
  pose proof (apollo_watch_live w args e) as Hs0. fold s0 in Hs0.
  pose proof (supervise_live w evs s0 Hs0) as H. fold s in H.
  split; [apply Hs0|].
  destruct (has_quit evs).
  - destruct H as [Hx Hp]. by rewrite Hp.
  - destruct H as ([Hx _] & _ & Hp). by rewrite Hp.
Qed.

(** C6. With a transport at hand, [apollo:watch] starts nodemon and at once
    sends [{ error: false }], before any line is logged. In a run of the
    supervisor this object is sent once more for each restart event and for
    nothing else: a listener sends it exactly when the event is a restart,
    and does so within the listener, right after the log line, without
    waiting for word from the new child. The two other status objects of
    the plugin, the crash one and the ready one, differ from it. *)
Theorem ok_status_at_start_and_restart (w : surroundings)
    (e : gmap string string) (args : gmap string jsval)
    (evs : list (nat * nodemon_event)) :
  IpcMessenger w = true ->
  let s0 := apollo_watch w args (fresh_proc e) in
  let s := supervise w evs s0 in
  let ok := {| p_error := Some false; p_urls := None |} in
  out s0 = [NodemonStart (watch_config w args); IpcConnect 0;
            IpcSend 0 (IpcMessage "org.akryum.vue-apollo" ok)]
  /\ length (filter (fun m => m = ok) (sent (out s)))
     = 1 + restarts_handled evs
  /\ (forall gap ev,
        sent (out (dispatch w ev (elapse w gap s)))
        = sent (out s)
          ++ (if exited s then []
              else match ev with
                   | Restart => [ok]
                   | Crash => [ {| p_error := Some true;
                                   p_urls := Some UrlsNull |} ]
                   | _ => []
                   end))
  /\ (exited s = false ->
      exists channel,
        out (dispatch w Restart s)
        = out s ++ [ConsoleLog "⏳  GraphQL API is restarting..."]
                ++ match ipc s with
                   | Some _ => []
                   | None => [IpcConnect channel]
                   end
                ++ [IpcSend channel (wrap ok)])
  /\ status_crashed <> ok
  /\ (forall port path, ready_payload port path <> ok).
Proof.
  intros Hw s0 s ok.
  pose proof (apollo_watch_live w args e) as Hs0. fold s0 in Hs0.
  pose proof (supervise_live w evs s0 Hs0) as H. fold s in H.
  split; [by apply apollo_watch_out|].
  split.
  { unfold s. rewrite supervise_sent by done.
    unfold s0. rewrite apollo_watch_out by done. simpl. lia. }
  split.
  { intros gap ev. destruct (has_quit evs).
    - destruct H as [Hex _]. rewrite Hex, elapse_exited by done.
      rewrite dispatch_exited by done. by rewrite app_nil_r.
    - pose proof (elapse_live w gap s H) as H1.
      destruct (elapse_alive_fields w gap s (proj1 H)) as (_ & _ & _ & Ho).
      rewrite (proj1 (proj1 H)).
      rewrite watching_dispatch by apply H1.
      rewrite on_event_sent, Ho by done. by destruct ev. }
  split; [|by split].
  - intros Hex. destruct (has_quit evs); [destruct H; congruence|].
    rewrite watching_dispatch by apply H. simpl.
    set (s1 := emit (ConsoleLog "⏳  GraphQL API is restarting...") s).
    pose proof (sendIpcMessage_fields w status_ok s1) as Hf.
    unfold channel_for in Hf. rewrite Hw in Hf.
    change (ipc s1) with (ipc s) in Hf. change (out s1) with
      (out s ++ [ConsoleLog "⏳  GraphQL API is restarting..."]) in Hf.
    destruct (ipc s) as [ch|].
    + exists ch. destruct Hf as (_ & -> & _). by rewrite <- !app_assoc.
    + exists (next_ipc s1). destruct Hf as (_ & -> & _).
      by rewrite <- !app_assoc.
Qed.

(** C4. Whenever nodemon reports a crash to a supervisor at work, with a
    transport at hand, the listener sends [{ error: true, urls: null }]
    under the namespace key. The supervisor goes on: it has not exited, its
    promise is still pending, its listeners are in place, and after any
    further events short of a [quit] a restart is still announced. *)
Theorem crash_reported_and_survived (w : surroundings)
    (e : gmap string string) (args : gmap string jsval)
    (evs later : list (nat * nodemon_event)) (gap gap' : nat) :
  IpcMessenger w = true ->
  has_quit evs = false ->
  has_quit later = false ->
  let s := elapse w gap (supervise w evs (apollo_watch w args (fresh_proc e))) in
  let s' := dispatch w Crash s in
  let crashed := {| p_error := Some true; p_urls := Some UrlsNull |} in
  sent (out s') = sent (out s) ++ [crashed]
  /\ (exists channel,
        last (out s')
        = Some (IpcSend channel (IpcMessage "org.akryum.vue-apollo" crashed)))
  /\ is_watching s' = true
  /\ promise s' = Some Pending
  /\ exited s' = false
  /\ let s'' := elapse w gap' (supervise w later s') in
     is_watching s'' = true
     /\ sent (out (dispatch w Restart s''))
        = sent (out s'') ++ [ {| p_error := Some false; p_urls := None |} ].
Proof.
  intros Hw Hevs Hlater s s' crashed.
  pose proof (supervise_live w evs _ (apollo_watch_live w args e)) as H0.
  rewrite Hevs in H0.
  pose proof (elapse_live w gap _ H0) as Hs. fold s in Hs.
  assert (Hs'eq : s' = on_event w Crash s).
  { unfold s'. apply watching_dispatch, Hs. }
  assert (Hs' : live s') by (rewrite Hs'eq; by apply on_event_live).
  split; [rewrite Hs'eq; by apply on_event_sent|].
  split.
  { rewrite Hs'eq. simpl.
    set (s1 := emit _ (emit _ s)).
    pose proof (sendIpcMessage_fields w status_crashed s1) as Hf.
    unfold channel_for in Hf. rewrite Hw in Hf.
    destruct (ipc s1) as [ch|]; destruct Hf as (_ & -> & _).
    - exists ch. by rewrite app_assoc, last_snoc.
    - exists (next_ipc s1). by rewrite app_assoc, last_snoc. }
  split; [apply Hs'|]. split; [apply Hs'|]. split; [apply Hs'|].
  intros s''.
  pose proof (supervise_live w later _ Hs') as H1. rewrite Hlater in H1.
  pose proof (elapse_live w gap' _ H1) as Hs''. fold s'' in Hs''.
  split; [apply Hs''|].
  rewrite watching_dispatch by apply Hs''.
  by rewrite on_event_sent.
Qed.

(** ** Strings and segments *)

Lemma append_cons (x : ascii) (a b : string) :
  String x a +:+ b = String x (a +:+ b).
Proof. reflexivity. Qed.

Lemma append_assoc (a b c : string) : (a +:+ b) +:+ c = a +:+ (b +:+ c).
Proof.
  induction a as [|x a IH]; [done|]. by rewrite !append_cons, IH.
Qed.

Lemma append_nil_r (s : string) : s +:+ "" = s.
Proof. induction s as [|x s IH]; [done|]. by rewrite append_cons, IH. Qed.

Lemma split_on_nonempty (c : ascii) (s : string) : split_on c s <> [].
Proof.
  destruct s as [|a s]; simpl; [done|].
  destruct (Ascii.eqb a c); [done|]. by destruct (split_on c s).
Qed.

Lemma split_on_app (c : ascii) (s1 s2 : string) :
  split_on c (s1 +:+ String c s2) = split_on c s1 ++ split_on c s2.
Proof.
  induction s1 as [|a s1 IH]; [|rewrite append_cons]; simpl.
  - by rewrite Ascii.eqb_refl.
  - destruct (Ascii.eqb a c); [by rewrite IH|].
    rewrite IH. pose proof (split_on_nonempty c s1) as Hne.
    by destruct (split_on c s1).
Qed.

Lemma split_on_free (c : ascii) (s : string) :
  has_char c s = false -> split_on c s = [s].
Proof.
  induction s as [|a s IH]; simpl; [done|].
  intros H. apply orb_false_iff in H as [Ha Hs].
  by rewrite Ha, (IH Hs).
Qed.

Lemma split_on_pieces (c : ascii) (s : string) :
  Forall (fun p => has_char c p = false) (split_on c s).
Proof.
  induction s as [|a s IH]; simpl; [by repeat constructor|].
  destruct (Ascii.eqb a c) eqn:Ha; [by constructor|].
  destruct (split_on c s) as [|h t]; [by repeat constructor; simpl; rewrite Ha|].
  inversion IH as [|? ? Hh Ht]; subst.
  constructor; [|done]. simpl. by rewrite Ha.
Qed.

Lemma split_on_join (c : ascii) (l : list string) :
  l <> [] ->
  Forall (fun p => has_char c p = false) l ->
  split_on c (join_with (String c "") l) = l.
Proof.
  induction l as [|x l IH]; [done|]. intros _ Hl.
  inversion Hl as [|? ? Hx Hl']; subst.
  destruct l as [|y l]; [by apply split_on_free|].
  change (join_with (String c "") (x :: y :: l))
    with (x +:+ String c (join_with (String c "") (y :: l))).
  rewrite split_on_app, split_on_free by done.
  by rewrite IH.
Qed.

Lemma join_with_snoc (sep : string) (l : list string) (x : string) :
  join_with sep (l ++ [x])
  = match l with
    | [] => x
    | _ => join_with sep l +:+ sep +:+ x
    end.
Proof.
  induction l as [|y l IH]; [done|].
  destruct l as [|z l]; [done|].
  change (join_with sep ((y :: z :: l) ++ [x]))
    with (y +:+ sep +:+ join_with sep ((z :: l) ++ [x])).
  rewrite IH.
  change (join_with sep (y :: z :: l))
    with (y +:+ sep +:+ join_with sep (z :: l)).
  by rewrite !append_assoc.
Qed.

Lemma step_skipped (a : bool) (S : list string) (x : string) :
  is_skipped x = true -> normalize_step a S x = S.
Proof. unfold normalize_step, is_skipped. by intros ->. Qed.

Lemma step_name (a : bool) (S : list string) (x : string) :
  is_name x = true -> normalize_step a S x = x :: S.
Proof.
  unfold normalize_step, is_name, is_skipped. intros H.
  apply andb_true_iff in H as [H1 H2].
  apply negb_true_iff in H1, H2. by rewrite H1, H2.
Qed.

Lemma segment_cases (x : string) :
  is_skipped x = true \/ x = ".." \/ is_name x = true.
Proof.
  unfold is_name. destruct (is_skipped x); [by left|right].
  destruct (String.eqb x "..") eqn:Hx; [left|by right].
  by apply String.eqb_eq.
Qed.

Lemma step_up_cons (a : bool) (x : string) (S : list string) :
  normalize_step a (x :: S) ".."
  = if String.eqb x ".."
    then (if a then ".." :: x :: S else x :: S)
    else S.
Proof. reflexivity. Qed.

Lemma step_commute (S R : list string) (y : string) :
  Forall (fun x => is_skipped x = false) R ->
  foldl (normalize_step false) S (rev (normalize_step true R y))
  = normalize_step false (foldl (normalize_step false) S (rev R)) y.
Proof.
  intros HR. destruct (segment_cases y) as [Hy|[->|Hy]].
  - by rewrite !step_skipped.
  - destruct R as [|x R]; [done|].
    inversion HR as [|? ? Hx _]; subst.
    rewrite step_up_cons.
    destruct (String.eqb x "..") eqn:Hup.
    + change (rev (".." :: x :: R)) with (rev (x :: R) ++ [".."]).
      by rewrite foldl_app.
    + simpl rev. rewrite foldl_app. simpl.
      rewrite (step_name false _ x)
        by (unfold is_name; by rewrite Hx, Hup).
      by rewrite step_up_cons, Hup.
  - rewrite !step_name by done. simpl. rewrite foldl_app. simpl.
    by rewrite step_name.
Qed.

Lemma step_keeps (P : string -> bool) (a : bool) (S : list string)
    (y : string) :
  P ".." = true -> (is_skipped y = false -> P y = true) ->
  Forall (fun x => P x = true) S ->
  Forall (fun x => P x = true) (normalize_step a S y).
Proof.
  intros Hup Hy HS. destruct (segment_cases y) as [Hs|[->|Hn]].
  - by rewrite step_skipped.
  - unfold normalize_step. simpl.
    destruct S as [|x S]; [destruct a; by repeat constructor|].
    inversion HS; subst.
    destruct (String.eqb x ".."); [destruct a|]; try done.
    by constructor.
  - rewrite step_name by done. constructor; [|done].
    apply Hy. unfold is_name in Hn. apply andb_true_iff in Hn as [Hn _].
    by apply negb_true_iff in Hn.
Qed.

Lemma fold_keeps (P : string -> bool) (a : bool) (ys S : list string) :
  P ".." = true ->
  Forall (fun y => is_skipped y = false -> P y = true) ys ->
  Forall (fun x => P x = true) S ->
  Forall (fun x => P x = true) (foldl (normalize_step a) S ys).
Proof.
  intros Hup Hys. revert S.
  induction Hys as [|y ys Hy _ IH]; intros S HS; [done|].
  simpl. apply IH. by apply step_keeps.
Qed.

Lemma fold_commute (ys R S : list string) :
  Forall (fun x => is_skipped x = false) R ->
  foldl (normalize_step false) S (rev (foldl (normalize_step true) R ys))
  = foldl (normalize_step false) (foldl (normalize_step false) S (rev R)) ys.
Proof.
  revert R. induction ys as [|y ys IH]; intros R HR; [done|].
  simpl. rewrite IH, step_commute; [done|done|].
  pose proof (step_keeps (fun x => negb (is_skipped x)) true R y) as Hk.
  simpl in Hk. eapply Forall_impl.
  - apply Hk; [done| |].
    + by intros ->.
    + eapply Forall_impl; [exact HR|]. simpl. by intros x ->.
  - simpl. intros x Hx. by apply negb_true_iff.
Qed.

(** ** [path.resolve] and [path.join] on the server folder *)

Lemma fold_names (a : bool) (ns S : list string) :
  Forall (fun x => is_name x = true) ns ->
  foldl (normalize_step a) S ns = rev ns ++ S.
Proof.
  intros Hns. revert S. induction Hns as [|x ns Hx _ IH]; intros S; [done|].
  simpl. rewrite step_name, IH by done. by rewrite <- app_assoc.
Qed.

Lemma is_name_up : is_name ".." = false.
Proof. reflexivity. Qed.

(** Without [allowAboveRoot] only names are kept. *)
Lemma fold_root_names (ys S : list string) :
  Forall (fun x => is_name x = true) S ->
  Forall (fun x => is_name x = true) (foldl (normalize_step false) S ys).
Proof.
  revert S. induction ys as [|y ys IH]; intros S HS; [done|].
  simpl. apply IH. destruct (segment_cases y) as [Hy|[->|Hy]].
  - by rewrite step_skipped.
  - destruct S as [|x S]; [done|]. rewrite step_up_cons.
    inversion HS; subst. by destruct (String.eqb x "..").
  - rewrite step_name by done. by constructor.
Qed.

Lemma fold_slash_free (a : bool) (s : string) (S : list string) :
  Forall (fun x => slash_free x = true) S ->
  Forall (fun x => slash_free x = true)
         (foldl (normalize_step a) S (split_on "/" s)).
Proof.
  intros HS. apply fold_keeps; [done| |done].
  eapply Forall_impl; [apply split_on_pieces|].
  simpl. intros x Hx _. unfold slash_free. by rewrite Hx.
Qed.

Lemma fold_kept (a : bool) (ys S : list string) :
  Forall (fun x => is_skipped x = false) S ->
  Forall (fun x => is_skipped x = false) (foldl (normalize_step a) S ys).
Proof.
  intros HS.
  pose proof (fold_keeps (fun x => negb (is_skipped x)) a ys S) as Hk.
  simpl in Hk. eapply Forall_impl.
  - apply Hk; [done| |].
    + apply Forall_forall. by intros x _ ->.
    + eapply Forall_impl; [exact HS|]. simpl. by intros x ->.
  - simpl. intros x Hx. by apply negb_true_iff.
Qed.

Lemma resolve_loop_acc (cwd : string) (pending : list string) (acc : string) :
  resolve_loop cwd pending acc
  = (fst (resolve_loop cwd pending "") +:+ acc,
     snd (resolve_loop cwd pending "")).
Proof.
  revert acc. induction pending as [|p pending IH]; intros acc; simpl.
  - destruct (String.eqb cwd ""); simpl; [done|].
    by rewrite !append_assoc.
  - destruct (String.eqb p ""); [apply IH|].
    destruct (isAbsolute p); simpl; [by rewrite !append_assoc|].
    rewrite IH, (IH (p +:+ "/" +:+ "")). simpl.
    by rewrite !append_assoc.
Qed.

Lemma resolve_loop_rooted (cwd : string) (pending : list string) :
  isAbsolute cwd = true ->
  exists q, resolve_loop cwd pending "" = (q +:+ "/", true).
Proof.
  intros Hcwd. induction pending as [|p pending [q IH]]; simpl.
  - destruct cwd as [|c cwd]; [done|]. simpl in *. rewrite Hcwd.
    by exists (String c cwd).
  - destruct (String.eqb p ""); [by exists q|].
    destruct (isAbsolute p); [by exists p|].
    rewrite resolve_loop_acc, IH. simpl.
    exists (q +:+ "/" +:+ p). by rewrite !append_assoc.
Qed.

Lemma append_nil_l (s : string) : "" +:+ s = s.
Proof. reflexivity. Qed.

Ltac str_norm :=
  rewrite ?append_assoc; repeat rewrite ?append_cons, ?append_nil_l.

Lemma resolve_loop_cons (cwd p : string) (earlier : list string)
    (acc : string) :
  resolve_loop cwd (p :: earlier) acc
  = if String.eqb p "" then resolve_loop cwd earlier acc
    else if isAbsolute p then (p +:+ "/" +:+ acc, true)
         else resolve_loop cwd earlier (p +:+ "/" +:+ acc).
Proof. reflexivity. Qed.

Lemma fold_snoc_skipped (a : bool) (S xs : list string) :
  foldl (normalize_step a) S (xs ++ [""]) = foldl (normalize_step a) S xs.
Proof. by rewrite foldl_app. Qed.

(** [api.resolve(p)] when the working directory is absolute: the segments
    of [p] are walked from the stack the project directory leaves, or from
    the root when [p] is absolute. *)
Lemma api_resolve_stack (w : surroundings) :
  isAbsolute (cwd w) = true ->
  exists S0,
    Forall (fun x => is_name x = true) S0
    /\ Forall (fun x => slash_free x = true) S0
    /\ forall p,
         api_resolve w p
         = "/" +:+ join_with "/"
             (rev (foldl (normalize_step false)
                         (if isAbsolute p then [] else S0) (split_on "/" p))).
Proof.
  intros Hcwd.
  destruct (resolve_loop_rooted (cwd w) [context w] Hcwd) as [q Hq].
  exists (foldl (normalize_step false) [] (split_on "/" q)).
  split; [by apply fold_root_names|].
  split; [by apply fold_slash_free|].
  intros p. unfold api_resolve, path_resolve.
  change (rev [context w; p]) with [p; context w].
  rewrite resolve_loop_cons.
  destruct (String.eqb p "") eqn:Hp.
  - apply String.eqb_eq in Hp as ->. rewrite Hq. simpl negb. cbv iota.
    unfold normalizeString, normalize_segments.
    change (q +:+ "/") with (q +:+ String "/" "").
    rewrite split_on_app. change (split_on "/" "") with [""].
    by rewrite fold_snoc_skipped.
  - destruct (isAbsolute p) eqn:Hab.
    + simpl negb. cbv iota. unfold normalizeString, normalize_segments.
      change (p +:+ "/" +:+ "") with (p +:+ String "/" "").
      rewrite split_on_app. change (split_on "/" "") with [""].
      by rewrite fold_snoc_skipped.
    + rewrite resolve_loop_acc, Hq. simpl fst. simpl snd. simpl negb.
      cbv iota. unfold normalizeString, normalize_segments.
      replace ((q +:+ "/") +:+ p +:+ "/" +:+ "")
        with (q +:+ String "/" (p +:+ String "/" ""))
        by (by str_norm).
      rewrite !split_on_app. change (split_on "/" "") with [""].
      by rewrite app_assoc, fold_snoc_skipped, foldl_app.
Qed.

Lemma ends_with_slash_live (b : string) : ends_with_slash (b +:+ "/live") = false.
Proof.
  induction b as [|c b IH]; [done|].
  rewrite append_cons. simpl. rewrite IH.
  by destruct (b +:+ "/live") eqn:Hb; [destruct b|].
Qed.

Lemma join_snoc_filled (l : list string) :
  String.eqb (join_with "/" (l ++ ["live"])) "" = false.
Proof.
  rewrite join_with_snoc. destruct l as [|x l]; [done|].
  apply String.eqb_neq.
  destruct (join_with "/" (x :: l)) as [|c s]; [done|].
  by rewrite append_cons.
Qed.

(** [path.join(b, 'live')]. *)
Lemma path_join_live (b : string) :
  path_join [b; "live"]
  = (if isAbsolute b then "/" else "")
    +:+ join_with "/"
          (rev (foldl (normalize_step (negb (isAbsolute b))) []
                      (split_on "/" b)) ++ ["live"]).
Proof.
  unfold path_join.
  destruct (String.eqb b "") eqn:Hb.
  - apply String.eqb_eq in Hb as ->. reflexivity.
  - rewrite filter_cons_True by (rewrite Hb; exact I).
    replace (filter (fun p : string => negb (String.eqb p "")) ["live"])
      with ["live"] by reflexivity.
    change (join_with "/" [b; "live"]) with (b +:+ String "/" "live").
    unfold path_normalize.
    assert (Hne : String.eqb (b +:+ String "/" "live") "" = false).
    { destruct b; [done|]. by rewrite append_cons. }
    assert (Hab : isAbsolute (b +:+ String "/" "live") = isAbsolute b).
    { destruct b; [done|]. by rewrite append_cons. }
    rewrite Hne, Hab.
    change (b +:+ String "/" "live") with (b +:+ "/live") at 1.
    rewrite ends_with_slash_live.
    unfold normalizeString, normalize_segments.
    rewrite split_on_app. change (split_on "/" "live") with ["live"].
    rewrite foldl_app. simpl foldl. rewrite step_name by done.
    simpl rev. cbv zeta. rewrite !join_snoc_filled. simpl.
    rewrite !andb_false_r.
    by destruct (isAbsolute b).
Qed.

Lemma join_relative (l : list string) :
  Forall (fun x => is_skipped x = false) l ->
  Forall (fun x => slash_free x = true) l ->
  isAbsolute (join_with "/" l) = false.
Proof.
  intros Hk Hs. destruct l as [|x l]; [done|].
  inversion Hk as [|? ? Hx _]; inversion Hs as [|? ? Hf _]; subst.
  destruct x as [|c x]; [done|].
  unfold slash_free in Hf. simpl in Hf.
  apply negb_true_iff, orb_false_iff in Hf as [Hc _].
  destruct l; simpl; done.
Qed.

Lemma name_kept (x : string) : is_name x = true -> is_skipped x = false.
Proof.
  unfold is_name. intros H. apply andb_true_iff in H as [H _].
  by apply negb_true_iff.
Qed.

Lemma slash_free_pieces (l : list string) :
  Forall (fun x => slash_free x = true) l ->
  Forall (fun p => has_char "/" p = false) l.
Proof.
  intros H. eapply Forall_impl; [exact H|]. simpl.
  intros x Hx. by apply negb_true_iff.
Qed.

Lemma split_on_rooted (s : string) :
  split_on "/" ("/" +:+ s) = "" :: split_on "/" s.
Proof. reflexivity. Qed.

Lemma isAbsolute_rooted (s : string) : isAbsolute ("/" +:+ s) = true.
Proof. reflexivity. Qed.

(** The watch root and the ignored path, segment by segment. *)
Lemma root_and_ignore (w : surroundings) (b : string) :
  isAbsolute (cwd w) = true ->
  exists L,
    Forall (fun x => is_name x = true) L
    /\ Forall (fun x => slash_free x = true) L
    /\ api_resolve w b = "/" +:+ join_with "/" L
    /\ api_resolve w (path_join [b; "live"])
       = "/" +:+ join_with "/" (L ++ ["live"]).
Proof.
  intros Hcwd.
  destruct (api_resolve_stack w Hcwd) as (S0 & HS0n & HS0f & Hres).
  rewrite !Hres, path_join_live.
  destruct (isAbsolute b) eqn:Hab; simpl negb.
  - set (T := foldl (normalize_step false) [] (split_on "/" b)).
    assert (HTn : Forall (fun x => is_name x = true) T)
      by (by apply fold_root_names).
    assert (HTf : Forall (fun x => slash_free x = true) T)
      by (by apply fold_slash_free).
    exists (rev T).
    split; [by apply Forall_rev|]. split; [by apply Forall_rev|].
    split; [done|].
    rewrite isAbsolute_rooted, split_on_rooted, split_on_join.
    + simpl. rewrite fold_names.
      * by rewrite app_nil_r, rev_involutive.
      * apply Forall_app. split; [by apply Forall_rev|by repeat constructor].
    + by destruct (rev T).
    + apply slash_free_pieces, Forall_app.
      split; [by apply Forall_rev|by repeat constructor].
  - set (T := foldl (normalize_step true) [] (split_on "/" b)).
    assert (HTk : Forall (fun x => is_skipped x = false) T)
      by (by apply fold_kept).
    assert (HTf : Forall (fun x => slash_free x = true) T)
      by (by apply fold_slash_free).
    set (R := foldl (normalize_step false) S0 (split_on "/" b)).
    exists (rev R).
    split; [by apply Forall_rev, fold_root_names|].
    split; [by apply Forall_rev, fold_slash_free|].
    split; [done|].
    rewrite append_nil_l.
    rewrite join_relative.
    + rewrite split_on_join.
      * rewrite foldl_app. simpl.
        unfold T. rewrite fold_commute by done. simpl. done.
      * by destruct (rev T).
      * apply slash_free_pieces, Forall_app.
        split; [by apply Forall_rev|by repeat constructor].
    + apply Forall_app. split; [by apply Forall_rev|by repeat constructor].
    + apply Forall_app. split; [by apply Forall_rev|by repeat constructor].
Qed.

Lemma filter_filled (l : list string) :
  Forall (fun x => is_name x = true) l ->
  filter (fun s => negb (String.eqb s "")) l = l.
Proof.
  induction 1 as [|x l Hx _ IH]; [done|].
  rewrite filter_cons_True; [by rewrite IH|].
  apply name_kept in Hx. unfold is_skipped in Hx.
  apply orb_false_iff in Hx as [-> _]. exact I.
Qed.

Lemma path_segments_rooted (L : list string) :
  Forall (fun x => is_name x = true) L ->
  Forall (fun x => slash_free x = true) L ->
  path_segments ("/" +:+ join_with "/" L) = L.
Proof.
  intros Hn Hf. unfold path_segments. rewrite split_on_rooted.
  destruct L as [|x L]; [done|].
  rewrite split_on_join by (done || by apply slash_free_pieces).
  rewrite filter_cons_False by (simpl; tauto).
  by apply filter_filled.
Qed.

Lemma starts_with_app (L rest : list string) : starts_with (L ++ rest) L = true.
Proof.
  induction L as [|x L IH]; [by destruct rest|].
  simpl. by rewrite String.eqb_refl, IH.
Qed.

Lemma rooted_live (L : list string) :
  Forall (fun x => is_name x = true) L ->
  "/" +:+ join_with "/" (L ++ ["live"])
  = if String.eqb ("/" +:+ join_with "/" L) "/" then "/live"
    else ("/" +:+ join_with "/" L) +:+ "/live".
Proof.
  intros Hn. rewrite join_with_snoc. destruct L as [|x L]; [done|].
  inversion Hn as [|? ? Hx _]; subst. apply name_kept in Hx.
  destruct x as [|c x]; [done|].
  assert (Hne : String.eqb ("/" +:+ join_with "/" (String c x :: L)) "/"
                = false) by (by destruct L).
  rewrite Hne. by rewrite append_assoc.
Qed.

(** C8. With an absolute working directory, for every server folder the
    configuration watches one root, the resolved folder, and ignores one
    path, [live] right below that root: the ignored path is the root's
    segments followed by [live]. Under the file watcher of the
    specification a change below the ignored path triggers nothing and a
    change of a watched kind of file elsewhere below the root triggers a
    restart; so for [./apollo-server] in [/proj], [live/x.json] against
    [resolvers.js]. *)
Theorem ignore_is_live_below_root (w : surroundings)
    (args : gmap string jsval) :
  isAbsolute (cwd w) = true ->
  let c := watch_config w args in
  let root := api_resolve w (baseFolder w) in
  let ign := api_resolve w (path_join [baseFolder w; "live"]) in
  watch c = [root]
  /\ ignore c = [ign]
  /\ path_segments ign = path_segments root ++ ["live"]
  /\ ign = (if String.eqb root "/" then "/live" else root +:+ "/live")
  /\ Forall (fun i => subpath_of i root = true) (ignore c)
  /\ (forall file,
        lies_under file ign = true -> triggers_restart c file = false)
  /\ (forall file,
        lies_under file root = true -> lies_under file ign = false ->
        existsb (String.eqb (file_extension file))
                ["js"; "mjs"; "json"; "graphql"; "gql"] = true ->
        triggers_restart c file = true)
  /\ (let c := watch_config sample_world ∅ in
      watch c = ["/proj/apollo-server"]
      /\ ignore c = ["/proj/apollo-server/live"]
      /\ triggers_restart c "/proj/apollo-server/live/x.json" = false
      /\ triggers_restart c "/proj/apollo-server/resolvers.js" = true).
Proof.
  intros Hcwd c root ign.
  destruct (root_and_ignore w (baseFolder w) Hcwd)
    as (L & Hn & Hf & Hroot & Hign).
  fold root in Hroot. fold ign in Hign.
  assert (Hsegs : path_segments ign = path_segments root ++ ["live"]).
  { rewrite Hroot, Hign, !path_segments_rooted; try done.
    - apply Forall_app. split; [done|by repeat constructor].
    - apply Forall_app. split; [done|by repeat constructor]. }
  split; [done|]. split; [done|]. split; [done|].
  split; [rewrite Hign, Hroot; by apply rooted_live|].
  split.
  { change (ignore c) with [ign]. constructor; [|constructor].
    unfold subpath_of.
    rewrite Hsegs, starts_with_app, length_app. simpl.
    apply negb_true_iff, Nat.leb_gt. lia. }
  split.
  { intros file Hunder. unfold triggers_restart.
    change (ignore c) with [ign]. simpl. rewrite Hunder. simpl.
    by rewrite andb_false_r. }
  split.
  { intros file Hroot' Hign' Hext. unfold triggers_restart.
    change (ignore c) with [ign]. change (watch c) with [root].
    simpl existsb at 1 2. rewrite Hroot', Hign'. simpl.
    exact Hext. }
  vm_compute. done.
Qed.

(** ** The launch command and the delay branch *)

Lemma tokens_join (l : list string) :
  l <> [] ->
  tokens (join_with " " l) = concat (map tokens l).
Proof.
  unfold tokens. induction l as [|x l IH]; [done|]. intros _.
  destruct l as [|y l]; [simpl; by rewrite app_nil_r|].
  change (join_with " " (x :: y :: l))
    with (x +:+ String " " (join_with " " (y :: l))).
  rewrite split_on_app, IH by done. reflexivity.
Qed.

Lemma exec_tokens (w : surroundings) (args : gmap string jsval) :
  tokens (exec_string (cmd w) args)
  = [cmd w; "run"; "apollo:run"; "--delay"]
    ++ tokens (js_join " " (flatArgs args)).
Proof.
  unfold exec_string, tokens, cmd.
  destruct (hasYarn w).
  - change ("yarn" +:+ " run apollo:run --delay " +:+ ?j)
      with ("yarn" +:+ String " " ("run" +:+ String " " ("apollo:run"
              +:+ String " " ("--delay" +:+ String " " j)))).
    by rewrite !split_on_app.
  - change ("npm" +:+ " run apollo:run --delay " +:+ ?j)
      with ("npm" +:+ String " " ("run" +:+ String " " ("apollo:run"
              +:+ String " " ("--delay" +:+ String " " j)))).
    by rewrite !split_on_app.
Qed.






(** ** Instances *)

Lemma idle_timer_resets_witness :
  IpcMessenger sample_world = true
  /\ let s1 := sendIpcMessage sample_world status_ok
                 (notify_calls sample_world
                    [(0, status_ok); (2999, status_crashed)] (fresh_proc ∅)) in
     ipc (elapse sample_world 3000 s1) = None
     /\ ipc (sendIpcMessage sample_world status_ok
               (elapse sample_world 2999 s1)) = ipc s1.
Proof.
  split; [reflexivity|].
  destruct (idle_timer_resets sample_world ∅
              [(0, status_ok); (2999, status_crashed)] status_ok eq_refl)
    as (channel & h & Hipc & _ & _ & Hclose & _ & Hreset).
  split.
  - apply (Hclose 3000). lia.
  - cbv zeta. rewrite Hipc. apply (Hreset 2999 status_ok). lia.
Defined.

Lemma crash_reported_and_survived_witness :
  IpcMessenger sample_world = true
  /\ has_quit [(100, Restart)] = false
  /\ has_quit [(50, Stdout ["listening"])] = false
  /\ let s := elapse sample_world 10
                 (supervise sample_world [(100, Restart)]
                    (apollo_watch sample_world scenario_D_args
                       (fresh_proc ∅))) in
     let s' := dispatch sample_world Crash s in
     sent (out s')
     = sent (out s) ++ [ {| p_error := Some true; p_urls := Some UrlsNull |} ]
     /\ is_watching s' = true.
Proof.
  split; [reflexivity|]. split; [reflexivity|]. split; [reflexivity|].
  pose proof (crash_reported_and_survived sample_world ∅ scenario_D_args
                [(100, Restart)] [(50, Stdout ["listening"])] 10 20
                eq_refl eq_refl eq_refl) as (Hsent & _ & Hwatch & _).
  split; [exact Hsent|exact Hwatch].
Defined.

Lemma ok_status_at_start_and_restart_witness :
  IpcMessenger sample_world = true
  /\ let s := supervise sample_world
                [(5, Restart); (10, Crash); (3, Restart)]
                (apollo_watch sample_world ∅ (fresh_proc ∅)) in
     length (filter (fun m => m = {| p_error := Some false; p_urls := None |})
               (sent (out s))) = 3.
Proof.
  split; [reflexivity|].
  exact (proj1 (proj2 (ok_status_at_start_and_restart sample_world ∅ ∅
                         [(5, Restart); (10, Crash); (3, Restart)] eq_refl))).
Defined.

Lemma ignore_is_live_below_root_witness :
  isAbsolute (cwd sample_world) = true
  /\ path_segments
       (api_resolve sample_world
          (path_join [baseFolder sample_world; "live"]))
     = path_segments (api_resolve sample_world (baseFolder sample_world))
       ++ ["live"].
Proof.
  split; [reflexivity|].
  exact (proj1 (proj2 (proj2
           (ignore_is_live_below_root sample_world ∅ eq_refl)))).
Defined.



(** * More properties *)

(** ** What is forwarded to the child *)

Lemma flatArgs_contributions (args : gmap string jsval) :
  flatArgs args
  = contribution args "--mock" ++ contribution args "--enable-engine"
    ++ contribution args "--delay" ++ contribution args "--port".
Proof.
  unfold flatArgs. rewrite flatArgs_loop. simpl. by rewrite app_nil_r.
Qed.



(** X2. Nothing is forwarded exactly when none of the four declared options
    is present; then the launch command ends in the blank after [--delay]. *)
Theorem flatArgs_empty_iff (args : gmap string jsval) (c : string) :
  (flatArgs args = []
   <-> Forall (fun k => args !! k = None) declared_keys)
  /\ (flatArgs args = [] ->
      exec_string c args = c +:+ " run apollo:run --delay ").
Proof.
  split.
  - rewrite flatArgs_contributions. unfold contribution. simpl substr.
    split.
    + intros H.
      apply app_eq_nil in H as [H1 H]. apply app_eq_nil in H as [H2 H].
      apply app_eq_nil in H as [H3 H4].
      destruct (args !! "mock") eqn:E1; [discriminate|].
      destruct (args !! "enable-engine") eqn:E2; [discriminate|].
      destruct (args !! "delay") eqn:E3; [discriminate|].
      destruct (args !! "port") eqn:E4; [discriminate|].
      unfold declared_keys. simpl. repeat constructor; assumption.
    + intros H. unfold declared_keys in H. simpl in H.
      inversion H as [|? ? H1 H']; subst.
      inversion H' as [|? ? H2 H'']; subst.
      inversion H'' as [|? ? H3 H''']; subst.
      inversion H''' as [|? ? H4 _]; subst.
      by rewrite H1, H2, H3, H4.
  - intros H. unfold exec_string. by rewrite H.
Qed.




(** X4. Values are not quoted: a [port] given as a string with a blank in it
    arrives as separate words after [--port], so what follows the blank is
    read by the child as arguments of its own. *)
Theorem exec_splits_values (w : surroundings) (args : gmap string jsval)
    (a b : string) :
  args !! "port" = Some (JStr (a +:+ " " +:+ b)) ->
  exists before,
    tokens (exec_string (cmd w) args)
    = before ++ ["--port"] ++ tokens a ++ tokens b.
Proof.
  intros Hport. rewrite exec_tokens, flatArgs_contributions.
  set (front := contribution args "--mock"
                ++ contribution args "--enable-engine"
                ++ contribution args "--delay").
  assert (Hlast : contribution args "--port"
                  = [JStr "--port"; JStr (a +:+ " " +:+ b)]).
  { unfold contribution. simpl substr. by rewrite Hport. }
  replace (contribution args "--mock" ++ contribution args "--enable-engine"
           ++ contribution args "--delay" ++ contribution args "--port")
    with (front ++ contribution args "--port")
    by (unfold front; by rewrite <- !app_assoc).
  rewrite Hlast. unfold js_join.
  rewrite tokens_join by (by destruct front).
  rewrite !map_app, concat_app. simpl.
  exists ([cmd w; "run"; "apollo:run"; "--delay"]
          ++ concat (map tokens (map join_elem front))).
  rewrite app_nil_r. unfold tokens.
  change (a +:+ " " +:+ b) with (a +:+ String " " b).
  rewrite split_on_app. by rewrite <- !app_assoc.
Qed.

Lemma exec_splits_values_witness :
  (<["port" := JStr "5000 --mock"]> ∅ : gmap string jsval) !! "port"
  = Some (JStr ("5000" +:+ " " +:+ "--mock"))
  /\ exists before,
       tokens (exec_string (cmd sample_world)
                 (<["port" := JStr "5000 --mock"]> ∅))
       = before ++ ["--port"] ++ tokens "5000" ++ tokens "--mock".
Proof.
  split; [reflexivity|].
  exact (exec_splits_values sample_world
           (<["port" := JStr "5000 --mock"]> ∅) "5000" "--mock" eq_refl).
Defined.

(** ** The port *)

(** X5. The port [apollo:run] settles on is never falsy: not 0, not the
    empty string, not [undefined]. *)
Theorem resolve_port_truthy (args : gmap string jsval)
    (e : gmap string string) :
  truthy (resolve_port args e) = true.
Proof.
  unfold resolve_port, js_or.
  destruct (truthy (js_get args "port")) eqn:Hp; [by rewrite Hp|].
  by destruct (truthy (env_get e "VUE_APP_GRAPHQL_PORT")) eqn:He.
Qed.

(** X6. [run] leaves the port where a later [run] of the same process finds
    it again: resolved against the environment [run] has written, the port
    prints the same as before (a 4000 taken by default comes back as the
    string "4000"). *)
Theorem resolve_port_stable (w : surroundings) (args : gmap string jsval)
    (s : proc) :
  toString (resolve_port args (env (run w args s)))
  = toString (resolve_port args (env s)).
Proof.
  destruct (run_unfold w args s) as (_ & _ & _ & _ & Henv & _).
  rewrite Henv. clear Henv.
  unfold resolve_port, js_or, env_get. rewrite lookup_insert_eq.
  destruct (truthy (js_get args "port")) eqn:Hp; [by rewrite Hp|].
  destruct (env s !! "VUE_APP_GRAPHQL_PORT") as [v|]; [|reflexivity].
  change (truthy (JStr v)) with (negb (String.eqb v "")).
  destruct (String.eqb v "") eqn:Hv; cbv iota; simpl negb; cbv iota.
  - reflexivity.
  - change (toString (JStr v)) with v.
    change (truthy (JStr v)) with (negb (String.eqb v "")).
    by rewrite Hv.
Qed.

(** ** The files of the server *)

Lemma resolve_below (w : surroundings) (b f : string) :
  isAbsolute (cwd w) = true ->
  b <> "" ->
  is_name f = true ->
  slash_free f = true ->
  path_segments (api_resolve w (b +:+ "/" +:+ f))
  = path_segments (api_resolve w b) ++ [f]
  /\ last (split_on "/" (api_resolve w (b +:+ "/" +:+ f))) = Some f.
Proof.
  intros Hcwd Hb Hname Hfree.
  destruct (api_resolve_stack w Hcwd) as (S0 & HS0n & HS0f & Hres).
  rewrite !Hres.
  assert (Hab : isAbsolute (b +:+ "/" +:+ f) = isAbsolute b)
    by (by destruct b).
  rewrite Hab.
  set (start := if isAbsolute b then [] else S0).
  assert (Hstart_n : Forall (fun x => is_name x = true) start)
    by (unfold start; by destruct (isAbsolute b)).
  assert (Hstart_f : Forall (fun x => slash_free x = true) start)
    by (unfold start; by destruct (isAbsolute b)).
  change (b +:+ "/" +:+ f) with (b +:+ String "/" f).
  rewrite split_on_app, foldl_app.
  rewrite (split_on_free "/" f) by (by apply negb_true_iff).
  simpl foldl. rewrite step_name by done. simpl rev.
  set (R := foldl (normalize_step false) start (split_on "/" b)).
  assert (HRn : Forall (fun x => is_name x = true) (rev R))
    by (by apply Forall_rev, fold_root_names).
  assert (HRf : Forall (fun x => slash_free x = true) (rev R))
    by (by apply Forall_rev, fold_slash_free).
  assert (HRn' : Forall (fun x => is_name x = true) (rev R ++ [f]))
    by (apply Forall_app; split; [done|by repeat constructor]).
  assert (HRf' : Forall (fun x => slash_free x = true) (rev R ++ [f]))
    by (apply Forall_app; split; [done|by repeat constructor]).
  split.
  - by rewrite !path_segments_rooted.
  - rewrite split_on_rooted, split_on_join.
    + by rewrite app_comm_cons, last_snoc.
    + by destruct (rev R).
    + by apply slash_free_pieces.
Qed.

Lemma starts_with_parts (L : list string) (x y : string) :
  String.eqb x y = false -> starts_with (L ++ [y]) (L ++ [x]) = false.
Proof.
  intros Hxy. induction L as [|z L IH]; simpl.
  - by rewrite Hxy.
  - by rewrite IH, andb_false_r.
Qed.

(** One file of the server folder, seen by the watcher. *)
Lemma server_file_watched (w : surroundings) (args : gmap string jsval)
    (f : string) :
  isAbsolute (cwd w) = true ->
  baseFolder w <> "" ->
  is_name f = true ->
  slash_free f = true ->
  String.eqb "live" f = false ->
  default "" (last (split_on "." f)) = "js" ->
  let p := api_resolve w (baseFolder w +:+ "/" +:+ f) in
  path_segments p = path_segments (api_resolve w (baseFolder w)) ++ [f]
  /\ triggers_restart (watch_config w args) p = true.
Proof.
  intros Hcwd Hb Hname Hfree Hlive Hext p.
  destruct (resolve_below w (baseFolder w) f Hcwd Hb Hname Hfree)
    as [Hsegs Hlast].
  fold p in Hsegs, Hlast.
  destruct (root_and_ignore w (baseFolder w) Hcwd)
    as (L & Hn & Hf & Hroot & Hign).
  split; [done|].
  unfold triggers_restart, watch_config. simpl watch. simpl ignore.
  simpl ext. simpl existsb at 1 2. unfold lies_under.
  rewrite Hsegs, Hign, Hroot.
  rewrite !path_segments_rooted; try done;
    try (apply Forall_app; split; [done|by repeat constructor]).
  rewrite starts_with_app, starts_with_parts by done.
  unfold file_extension. rewrite Hlast. simpl default at 2. rewrite Hext.
  reflexivity.
Qed.

(** X7. With a server folder that is not the empty string, each of the nine
    files [apollo:run] hands to the server lies right below the root that
    [apollo:watch] watches, outside the ignored [live] folder, and is of a
    watched kind: under the watcher of the specification a change of any of
    them restarts the server. *)
Theorem server_files_are_watched (w : surroundings)
    (args : gmap string jsval) :
  isAbsolute (cwd w) = true ->
  baseFolder w <> "" ->
  length (server_paths w) = 9
  /\ Forall (fun p =>
              subpath_of p (api_resolve w (baseFolder w)) = true
              /\ triggers_restart (watch_config w args) p = true)
            (server_paths w)
  /\ Forall2 (fun p file =>
               path_segments p
               = path_segments (api_resolve w (baseFolder w)) ++ [file])
             (server_paths w) server_files.
Proof.
  intros Hcwd Hb. split; [reflexivity|].
  assert (Hall : Forall (fun f =>
            let p := api_resolve w (baseFolder w +:+ "/" +:+ f) in
            path_segments p
            = path_segments (api_resolve w (baseFolder w)) ++ [f]
            /\ triggers_restart (watch_config w args) p = true)
            server_files).
  { unfold server_files.
    repeat (constructor; [by apply server_file_watched|]). constructor. }
  split.
  - unfold server_paths. apply Forall_map.
    eapply Forall_impl; [exact Hall|]. simpl. intros f [Hsegs Htrig].
    split; [|done]. unfold subpath_of.
    rewrite Hsegs, starts_with_app, length_app. simpl.
    apply negb_true_iff, Nat.leb_gt. lia.
  - unfold server_paths. apply Forall2_fmap_l, Forall_Forall2_diag.
    eapply Forall_impl; [exact Hall|]. simpl. by intros f [Hsegs _].
Qed.

Lemma server_files_are_watched_witness :
  isAbsolute (cwd sample_world) = true
  /\ baseFolder sample_world <> ""
  /\ Forall (fun p => triggers_restart (watch_config sample_world ∅) p = true)
            (server_paths sample_world).
Proof.
  assert (Hb : baseFolder sample_world <> "") by (vm_compute; discriminate).
  split; [reflexivity|]. split; [exact Hb|].
  pose proof (server_files_are_watched sample_world ∅ eq_refl Hb)
    as (_ & Hall & _).
  eapply Forall_impl; [exact Hall|]. simpl. by intros p [_ Htrig].
Defined.

(** X8. With the empty string as server folder the template strings start
    with a slash: the nine files are then looked for in the root directory
    of the file system, wherever the project is. *)
Theorem server_files_of_empty_folder (w : surroundings) :
  baseFolder w = "" ->
  server_paths w = map (fun file => "/" +:+ file) server_files.
Proof.
  intros Hb. unfold server_paths. rewrite Hb. reflexivity.
Qed.

Lemma server_files_of_empty_folder_witness :
  let w := Surroundings false true "/proj" "/proj" (Some "")
             plain_defaultValue in
  baseFolder w = ""
  /\ server_paths w = map (fun file => "/" +:+ file) server_files.
Proof.
  split; [reflexivity|].
  exact (server_files_of_empty_folder
           (Surroundings false true "/proj" "/proj" (Some "")
              plain_defaultValue) eq_refl).
Defined.

(** ** The relay in any process *)

Lemma wire_app (a b : list effect) : wire (a ++ b) = wire a ++ wire b.
Proof. apply filter_app. Qed.

Lemma crashes_app (a b : list effect) :
  crashes (a ++ b) = crashes a ++ crashes b.
Proof. apply filter_app. Qed.

Lemma channel_protocol_app (open : option nat) (a b : list effect) :
  channel_protocol open (a ++ b)
  = match channel_protocol open a with
    | Some open' => channel_protocol open' b
    | None => None
    end.
Proof.
  revert open. induction a as [|e a IH]; intros open; [done|].
  destruct e; simpl; try apply IH.
  - destruct open; [done|apply IH].
  - destruct open as [c'|]; [|done].
    destruct ((channel =? c')%nat && _); [apply IH|done].
  - destruct open as [c'|]; [|done].
    destruct (channel =? c')%nat; [apply IH|done].
Qed.

Lemma channel_protocol_wire (open : option nat) (tr : list effect) :
  channel_protocol open (wire tr) = channel_protocol open tr.
Proof.
  revert open. induction tr as [|e tr IH]; intros open; [done|].
  unfold wire in *.
  destruct e; simpl;
    rewrite ?filter_cons_True by exact I;
    rewrite ?filter_cons_False by (intros []); simpl; try apply IH.
  - destruct open; [done|apply IH].
  - destruct open as [c'|]; [|done].
    destruct ((channel =? c')%nat && _); [apply IH|done].
  - destruct open as [c'|]; [|done].
    destruct (channel =? c')%nat; [apply IH|done].
Qed.

Lemma filter_swap {A} (P Q : A -> bool) (l : list A) :
  filter (fun x => P x) (filter (fun x => Q x) l)
  = filter (fun x => Q x) (filter (fun x => P x) l).
Proof.
  induction l as [|x l IH]; [done|].
  rewrite !filter_cons.
  destruct (P x) eqn:HP, (Q x) eqn:HQ; simpl;
    rewrite ?filter_cons, ?HP, ?HQ; simpl; by rewrite ?IH.
Qed.

Lemma filter_none {A} (P : A -> bool) (l : list A) :
  filter (fun x => P x) l = [] -> Forall (fun x => P x = false) l.
Proof.
  induction l as [|x l IH]; [done|].
  rewrite filter_cons. destruct (P x) eqn:HP; simpl; [done|].
  intros H. constructor; [done|by apply IH].
Qed.

(** What a call of the relay does to the channel state and the trace. *)
Lemma sendIpcMessage_channel (w : surroundings) (m : payload) (s : proc) :
  match ipc s with
  | Some channel =>
      ipc (sendIpcMessage w m s) = Some channel
      /\ next_ipc (sendIpcMessage w m s) = next_ipc s
      /\ out (sendIpcMessage w m s) = out s ++ [IpcSend channel (wrap m)]
  | None =>
      if IpcMessenger w
      then ipc (sendIpcMessage w m s) = Some (next_ipc s)
           /\ next_ipc (sendIpcMessage w m s) = S (next_ipc s)
           /\ out (sendIpcMessage w m s)
              = out s ++ [IpcConnect (next_ipc s);
                          IpcSend (next_ipc s) (wrap m)]
      else sendIpcMessage w m s = s
  end.
Proof.
  destruct s as [clk ts nt [ch|] ni it e cb hs pr ex o];
    unfold sendIpcMessage; simpl.
  - by destruct it.
  - destruct (IpcMessenger w); simpl; [|done].
    destruct it; simpl; repeat split; by rewrite <- app_assoc.
Qed.

Lemma idle_without (h : option nat) (ts : list timeout) :
  filter (fun t => is_idle_close t) (without h ts)
  = without h (filter (fun t => is_idle_close t) ts).
Proof.
  destruct h as [h|]; [|done]. simpl.
  apply (filter_swap is_idle_close (fun t => negb (handle t =? h)%nat)).
Qed.

Lemma idle_single (h d : nat) :
  filter (fun t => is_idle_close t) [Timeout h d CloseIdleChannel]
  = [Timeout h d CloseIdleChannel].
Proof. by rewrite filter_cons_True by exact I. Qed.

Lemma without_same (h d : nat) (cb : callback) :
  without (Some h) [Timeout h d cb] = [].
Proof.
  simpl. rewrite filter_cons_False; [done|].
  simpl. rewrite Nat.eqb_refl. intros [].
Qed.

Lemma sendIpcMessage_sound (w : surroundings) (m : payload) (s : proc) :
  sound s -> sound (sendIpcMessage w m s).
Proof.
  intros (Hinv & Hcr & Hpr).
  pose proof (sendIpcMessage_fields w m s) as Hf.
  pose proof (sendIpcMessage_channel w m s) as Hc.
  unfold channel_for in Hf. unfold relay_inv in Hinv.
  destruct (ipc s) as [ch|] eqn:Hipc.
  - destruct Hf as (Hipc' & _ & Hts & Hit & _ & Hclk & _).
    destruct Hc as (_ & Hni & Hout).
    destruct Hinv as (Hlt & h & d & Hidle & Hh & _).
    repeat split.
    + unfold relay_inv. rewrite Hipc', Hni, Hts, Hit, Hclk.
      split; [done|]. exists (next_timer s), (clock s + 3000).
      rewrite filter_app, idle_without, Hidle, Hh, without_same, idle_single.
      repeat split; try done; lia.
    + rewrite Hout, crashes_app, Hcr. reflexivity.
    + rewrite Hout, wire_app, channel_protocol_app, Hpr, Hipc'.
      unfold wire. rewrite filter_cons_True by exact I. simpl.
      rewrite Nat.eqb_refl. reflexivity.
  - destruct (IpcMessenger w);
      [|rewrite Hf; unfold sound, relay_inv; by rewrite Hipc].
    destruct Hf as (Hipc' & _ & Hts & Hit & _ & Hclk & _).
    destruct Hc as (_ & Hni & Hout).
    repeat split.
    + unfold relay_inv. rewrite Hipc', Hni, Hts, Hit, Hclk.
      split; [lia|]. exists (next_timer s), (clock s + 3000).
      rewrite filter_app, idle_without, Hinv, idle_single.
      assert (Hw : without (ipcTimer s) [] = ([] : list timeout))
        by (by destruct (ipcTimer s)).
      rewrite Hw. repeat split; try done; lia.
    + rewrite Hout, crashes_app, Hcr. reflexivity.
    + rewrite Hout, wire_app, channel_protocol_app, Hpr, Hipc'.
      unfold wire. rewrite !filter_cons_True by exact I. simpl.
      rewrite Nat.eqb_refl. reflexivity.
Qed.

(** A step that leaves the relay's variables alone and adds nothing that
    concerns the channel keeps all of it. *)
Lemma sound_frame (s s' : proc) (extra : list effect) :
  ipc s' = ipc s ->
  next_ipc s' = next_ipc s ->
  filter (fun t => is_idle_close t) (timers s')
  = filter (fun t => is_idle_close t) (timers s) ->
  ipcTimer s' = ipcTimer s ->
  clock s' = clock s ->
  out s' = out s ++ extra ->
  wire extra = [] ->
  crashes extra = [] ->
  sound s -> sound s'.
Proof.
  intros Hi Hn Ht Hit Hc Ho Hw Hcr (Hinv & Hcrs & Hpr).
  repeat split.
  - unfold relay_inv in *. by rewrite Hi, Hn, Ht, Hit, Hc.
  - by rewrite Ho, crashes_app, Hcrs, Hcr.
  - by rewrite Ho, wire_app, Hw, app_nil_r, Hi.
Qed.

Lemma run_frame (w : surroundings) (args : gmap string jsval) (s : proc) :
  ipc (run w args s) = ipc s
  /\ next_ipc (run w args s) = next_ipc s
  /\ timers (run w args s) = timers s
  /\ ipcTimer (run w args s) = ipcTimer s
  /\ clock (run w args s) = clock s
  /\ exited (run w args s) = exited s
  /\ wire (out (run w args s)) = wire (out s)
  /\ crashes (out (run w args s)) = crashes (out s).
Proof.
  destruct (run_unfold w args s) as (opts & _ & _ & Hout & _).
  rewrite Hout, wire_app, crashes_app.
  repeat split; try reflexivity; apply app_nil_r.
Qed.

Lemma fire_all_runs (w : surroundings) (ready : list timeout) (s : proc) :
  Forall (fun t => is_idle_close t = false) ready ->
  let s' := foldl (fun s t => if exited s then s else fire w (action t) s)
                  s ready in
  ipc s' = ipc s
  /\ next_ipc s' = next_ipc s
  /\ timers s' = timers s
  /\ ipcTimer s' = ipcTimer s
  /\ clock s' = clock s
  /\ exited s' = exited s
  /\ wire (out s') = wire (out s)
  /\ crashes (out s') = crashes (out s).
Proof.
  intros Hruns. revert s.
  induction Hruns as [|t ready Ht _ IH]; intros s; [by repeat split|].
  simpl. destruct (exited s) eqn:Hex;
    [specialize (IH s); by rewrite Hex in IH|].
  destruct t as [h d [|args]]; [discriminate|]. simpl action.
  change (fire w (Run args) s) with (run w args s).
  destruct (run_frame w args s) as (H1 & H2 & H3 & H4 & H5 & H6 & H7 & H8).
  destruct (IH (run w args s)) as (I1 & I2 & I3 & I4 & I5 & I6 & I7 & I8).
  cbv zeta. rewrite I1, I2, I3, I4, I5, I6, I7, I8.
  by rewrite H1, H2, H3, H4, H5, H6, H7, H8.
Qed.

Lemma fire_all_close (w : surroundings) (ready : list timeout) (s : proc)
    (t : timeout) (channel : nat) :
  filter (fun t => is_idle_close t) ready = [t] ->
  exited s = false ->
  ipc s = Some channel ->
  let s' := foldl (fun s t => if exited s then s else fire w (action t) s)
                  s ready in
  ipc s' = None
  /\ next_ipc s' = next_ipc s
  /\ timers s' = timers s
  /\ ipcTimer s' = ipcTimer s
  /\ clock s' = clock s
  /\ exited s' = false
  /\ wire (out s') = wire (out s) ++ [IpcDisconnect channel]
  /\ crashes (out s') = crashes (out s).
Proof.
  revert s. induction ready as [|t' ready IH]; intros s Hone Hex Hipc;
    [discriminate|].
  simpl. rewrite Hex. rewrite filter_cons in Hone.
  destruct t' as [h d [|args]]; simpl in Hone.
  - injection Hone as _ Hrest. apply filter_none in Hrest.
    simpl action.
    change (fire w CloseIdleChannel s)
      with (match ipc s with
            | Some channel => set_ipc None (emit (IpcDisconnect channel) s)
            | None => uncaught "TypeError" s
            end).
    rewrite Hipc.
    destruct (fire_all_runs w ready
                (set_ipc None (emit (IpcDisconnect channel) s)) Hrest)
      as (I1 & I2 & I3 & I4 & I5 & I6 & I7 & I8).
    cbv zeta. rewrite I1, I2, I3, I4, I5, I6, I7, I8. simpl.
    rewrite wire_app, crashes_app.
    repeat split; try done. apply app_nil_r.
  - simpl action. change (fire w (Run args) s) with (run w args s).
    destruct (run_frame w args s) as (H1 & H2 & H3 & H4 & H5 & H6 & H7 & H8).
    destruct (IH (run w args s) Hone) as (I1 & I2 & I3 & I4 & I5 & I6 & I7 & I8);
      [by rewrite H6|by rewrite H1|].
    cbv zeta. rewrite I1, I2, I3, I4, I5, I6, I7, I8.
    by rewrite H2, H3, H4, H5, H7, H8.
Qed.

(** One millisecond, seen from the relay: an open channel stays open with
    its close still pending, or is closed by it; nothing else touches the
    channel. *)
Lemma tick_sound (w : surroundings) (s : proc) :
  sound s ->
  exited s = false ->
  let s' := tick w s in
  sound s'
  /\ exited s' = false
  /\ next_ipc s' = next_ipc s
  /\ clock s' = S (clock s)
  /\ match ipc s with
     | None => ipc s' = None /\ wire (out s') = wire (out s)
     | Some channel =>
         (ipc s' = Some channel
          /\ wire (out s') = wire (out s)
          /\ filter (fun t => is_idle_close t) (timers s')
             = filter (fun t => is_idle_close t) (timers s)
          /\ ipcTimer s' = ipcTimer s)
         \/ (ipc s' = None
             /\ wire (out s') = wire (out s) ++ [IpcDisconnect channel])
     end.
Proof.
  intros (Hinv & Hcr & Hpr) Hex. unfold tick. rewrite Hex.
  set (now := S (clock s)).
  set (ready := filter (is_due now) (timers s)).
  set (rest := filter (fun t => negb (is_due now t)) (timers s)).
  set (s0 := set_timers rest (set_clock now s)).
  assert (Hready : filter (fun t => is_idle_close t) ready
                   = filter (is_due now)
                       (filter (fun t => is_idle_close t) (timers s)))
    by apply (filter_swap is_idle_close (is_due now)).
  assert (Hrest : filter (fun t => is_idle_close t) rest
                  = filter (fun t => negb (is_due now t))
                      (filter (fun t => is_idle_close t) (timers s)))
    by apply (filter_swap is_idle_close (fun t => negb (is_due now t))).
  unfold relay_inv in Hinv. cbv zeta.
  destruct (ipc s) as [ch|] eqn:Hipc.
  - destruct Hinv as (Hlt & h & d & Hidle & Hh & Hd1 & Hd2).
    rewrite Hidle in Hready, Hrest.
    destruct (is_due now (Timeout h d CloseIdleChannel)) eqn:Hdue.
    + rewrite filter_cons_True in Hready by (by rewrite Hdue).
      rewrite filter_cons_False in Hrest by (rewrite Hdue; intros []).
      rewrite filter_nil in Hready, Hrest.
      destruct (fire_all_close w ready s0 _ ch Hready Hex Hipc)
        as (I1 & I2 & I3 & I4 & I5 & I6 & I7 & I8).
      cbv zeta in I1, I2, I3, I4, I5, I6, I7, I8.
      split; [|split; [done|split; [done|split; [done|right; by split]]]].
      repeat split.
      * unfold relay_inv. by rewrite I1, I3.
      * by rewrite I8.
      * rewrite I7, channel_protocol_app, I1.
        change (out s0) with (out s). rewrite Hpr. simpl.
        rewrite Nat.eqb_refl. reflexivity.
    + rewrite filter_cons_False in Hready by (rewrite Hdue; intros []).
      rewrite filter_cons_True in Hrest by (by rewrite Hdue).
      rewrite filter_nil in Hready, Hrest. apply filter_none in Hready.
      destruct (fire_all_runs w ready s0 Hready)
        as (I1 & I2 & I3 & I4 & I5 & I6 & I7 & I8).
      cbv zeta in I1, I2, I3, I4, I5, I6, I7, I8.
      apply Nat.leb_gt in Hdue. simpl in Hdue.
      split; [|split; [rewrite I6; exact Hex|split; [done|split; [done|]]]].
      2:{ left. rewrite I1, I3, I4, I7.
          change (timers s0) with rest. rewrite Hrest, Hidle.
          repeat split. exact Hipc. }
      repeat split.
      * unfold relay_inv. rewrite I1, I2, I3, I4, I5.
        change (ipc s0) with (ipc s). rewrite Hipc.
        split; [done|]. exists h, d. repeat split; try done.
        change (clock s0) with now. unfold now. lia.
      * by rewrite I8.
      * rewrite I7, I1. change (ipc s0) with (ipc s). by rewrite Hipc.
  - rewrite Hinv in Hready, Hrest. rewrite filter_nil in Hready, Hrest.
    apply filter_none in Hready.
    destruct (fire_all_runs w ready s0 Hready)
      as (I1 & I2 & I3 & I4 & I5 & I6 & I7 & I8).
    cbv zeta in I1, I2, I3, I4, I5, I6, I7, I8.
    change (ipc s0) with (ipc s) in I1. rewrite Hipc in I1.
    split; [|split; [rewrite I6; exact Hex|split; [done|split;
      [done|by split]]]].
    repeat split.
    + unfold relay_inv. by rewrite I1, I3.
    + by rewrite I8.
    + by rewrite I7, I1.
Qed.

Lemma emit_sound (e : effect) (s : proc) :
  on_channel e = false -> is_uncaught e = false ->
  sound s -> sound (emit e s).
Proof.
  intros Hc Hu. apply (sound_frame s (emit e s) [e]); try reflexivity.
  - unfold wire. rewrite filter_cons_False; [done|]. rewrite Hc. intros [].
  - unfold crashes. rewrite filter_cons_False; [done|]. rewrite Hu. intros [].
Qed.

Lemma run_sound (w : surroundings) (args : gmap string jsval) (s : proc) :
  sound s -> sound (run w args s).
Proof.
  destruct (run_unfold w args s) as (opts & _ & _ & Hout & _).
  eapply (sound_frame s (run w args s)); try exact Hout; reflexivity.
Qed.

Lemma apollo_run_sound (w : surroundings) (args : gmap string jsval)
    (s : proc) :
  sound s -> sound (apollo_run w args s).
Proof.
  intros Hs. unfold apollo_run. destruct (truthy _); [|by apply run_sound].
  apply (sound_frame s _ []); try reflexivity; [|by rewrite app_nil_r|done].
  simpl. rewrite filter_app, filter_cons_False by (intros []).
  by rewrite filter_nil, app_nil_r.
Qed.

Lemma apollo_watch_sound (w : surroundings) (args : gmap string jsval)
    (s : proc) :
  sound s -> sound (apollo_watch w args s).
Proof.
  intros Hs. unfold apollo_watch.
  set (s1 := emit (NodemonStart (watch_config w args))
               (set_promise (Some Pending) s)).
  assert (Hs1 : sound s1).
  { apply (sound_frame s s1 [NodemonStart (watch_config w args)]);
      try reflexivity; done. }
  pose proof (sendIpcMessage_sound w status_ok s1 Hs1) as Hs2.
  apply (sound_frame (sendIpcMessage w status_ok s1) _ []);
    try reflexivity; [by rewrite app_nil_r|done].
Qed.

Lemma on_event_sound (w : surroundings) (ev : nodemon_event) (s : proc) :
  sound s -> sound (on_event w ev s).
Proof.
  intros Hs. destruct ev; simpl.
  - by apply sendIpcMessage_sound, emit_sound.
  - by apply sendIpcMessage_sound, emit_sound, emit_sound.
  - by apply emit_sound.
  - by apply emit_sound.
  - apply (sound_frame s _ [ProcessExit]); try reflexivity; try done;
      unfold resolve; by destruct (promise s) as [[]|].
Qed.

Lemma dispatch_sound (w : surroundings) (ev : nodemon_event) (s : proc) :
  sound s -> sound (dispatch w ev s).
Proof.
  unfold dispatch. generalize (handlers s) as names. intros names. revert s.
  induction names as [|name names IH]; intros s Hs; [done|].
  simpl. apply IH. destruct (exited s); [done|].
  destruct (String.eqb name (event_name ev)); [|done].
  by apply on_event_sound.
Qed.

Lemma elapse_sound (w : surroundings) (n : nat) (s : proc) :
  sound s ->
  sound (elapse w n s)
  /\ exited (elapse w n s) = exited s
  /\ next_ipc (elapse w n s) = next_ipc s.
Proof.
  intros Hs. destruct (exited s) eqn:Hex.
  - by rewrite elapse_exited.
  - induction n as [|n (IH1 & IH2 & IH3)]; [done|].
    rewrite elapse_S.
    destruct (tick_sound w (elapse w n s) IH1 IH2) as (T1 & T2 & T3 & _).
    cbv zeta in T1, T2, T3. by rewrite T3, IH3.
Qed.

Lemma step_sound (w : surroundings) (s : proc) (i : input) :
  sound s -> sound (step w s i).
Proof.
  intros Hs. unfold step. destruct (exited s); [done|].
  destruct i.
  - by apply apollo_watch_sound.
  - by apply apollo_run_sound.
  - by apply elapse_sound.
  - by apply dispatch_sound.
  - unfold server_ready. destruct (server_cb s) as [[p g]|]; [|done].
    by apply sendIpcMessage_sound.
  - by apply sendIpcMessage_sound.
Qed.

Lemma run_inputs_sound (w : surroundings) (ins : list input) (s : proc) :
  sound s -> sound (run_inputs w ins s).
Proof.
  revert s. induction ins as [|i ins IH]; intros s Hs; [done|].
  simpl. by apply IH, step_sound.
Qed.

Lemma fresh_proc_sound (e : gmap string string) : sound (fresh_proc e).
Proof. by repeat split. Qed.

(** X9. Whatever happens to a process, its trace follows the messenger's
    protocol: a channel is connected only while none is open, every message
    goes out on the open channel under the namespace key, only the open
    channel is disconnected; and [ipc] is set exactly when the trace ends
    with a channel open. *)
Theorem trace_follows_protocol (w : surroundings) (e : gmap string string)
    (ins : list input) :
  channel_protocol None (out (run_inputs w ins (fresh_proc e)))
  = Some (ipc (run_inputs w ins (fresh_proc e))).
Proof.
  destruct (run_inputs_sound w ins _ (fresh_proc_sound e)) as (_ & _ & H).
  by rewrite channel_protocol_wire in H.
Qed.

(** X10. Whatever happens to a process, the close callback never finds
    [ipc] unset (no uncaught [TypeError]), and the relay's invariant holds:
    with [ipc] unset no close is pending, with [ipc] set exactly one is,
    the one in [ipcTimer], due within 3000 ms. *)
Theorem relay_never_throws (w : surroundings) (e : gmap string string)
    (ins : list input) :
  let s := run_inputs w ins (fresh_proc e) in
  Forall (fun ef => is_uncaught ef = false) (out s)
  /\ match ipc s with
     | None => Forall (fun t => is_idle_close t = false) (timers s)
     | Some channel =>
         exists h d,
           filter (fun t => is_idle_close t) (timers s)
           = [Timeout h d CloseIdleChannel]
           /\ ipcTimer s = Some h
           /\ clock s < d /\ d <= clock s + 3000
     end.
Proof.
  intros s.
  destruct (run_inputs_sound w ins _ (fresh_proc_sound e)) as (Hinv & Hcr & _).
  fold s in Hinv, Hcr. split.
  - by apply (filter_none is_uncaught).
  - unfold relay_inv in Hinv. destruct (ipc s); [apply Hinv|].
    by apply (filter_none is_idle_close).
Qed.

Lemma elapse_front (w : surroundings) (n : nat) (s : proc) :
  elapse w (S n) s = elapse w n (tick w s).
Proof. unfold elapse. apply Nat.iter_succ_r. Qed.

Lemma elapse_unset_wire (w : surroundings) (n : nat) (s : proc) :
  sound s -> exited s = false -> ipc s = None ->
  ipc (elapse w n s) = None /\ wire (out (elapse w n s)) = wire (out s).
Proof.
  revert s. induction n as [|n IH]; intros s Hs Hex Hipc; [done|].
  rewrite elapse_front.
  destruct (tick_sound w s Hs Hex) as (T1 & T2 & _ & _ & T5).
  cbv zeta in T1, T2, T5. rewrite Hipc in T5. destruct T5 as [T5 T6].
  destruct (IH _ T1 T2 T5) as [I1 I2]. by rewrite I1, I2.
Qed.

(** An open channel is closed once its pending close is due. *)
Lemma elapse_closes (w : surroundings) (n : nat) (s : proc)
    (channel h d : nat) :
  sound s -> exited s = false -> ipc s = Some channel ->
  filter (fun t => is_idle_close t) (timers s)
  = [Timeout h d CloseIdleChannel] ->
  d <= clock s + n ->
  ipc (elapse w n s) = None
  /\ wire (out (elapse w n s)) = wire (out s) ++ [IpcDisconnect channel].
Proof.
  revert s. induction n as [|n IH]; intros s Hs Hex Hipc Hidle Hd.
  - destruct Hs as (Hinv & _). unfold relay_inv in Hinv.
    rewrite Hipc, Hidle in Hinv.
    destruct Hinv as (_ & h' & d' & Heq & _ & Hlt & _).
    injection Heq as <- <-. lia.
  - rewrite elapse_front.
    destruct (tick_sound w s Hs Hex) as (T1 & T2 & _ & T4 & T5).
    cbv zeta in T1, T2, T4, T5. rewrite Hipc in T5.
    destruct T5 as [(T5 & T6 & T7 & _)|(T5 & T6)].
    + destruct (IH _ T1 T2 T5) as [I1 I2].
      * by rewrite T7.
      * rewrite T4. lia.
      * by rewrite I1, I2, T6.
    + destruct (elapse_unset_wire w n _ T1 T2 T5) as [I1 I2].
      by rewrite I1, I2, T6.
Qed.

Lemma sound_channel_closes (w : surroundings) (n : nat) (s : proc)
    (channel : nat) :
  sound s -> exited s = false -> ipc s = Some channel -> 3000 <= n ->
  ipc (elapse w n s) = None
  /\ wire (out (elapse w n s)) = wire (out s) ++ [IpcDisconnect channel].
Proof.
  intros Hs Hex Hipc Hn. pose proof Hs as (Hinv & _).
  unfold relay_inv in Hinv. rewrite Hipc in Hinv.
  destruct Hinv as (_ & h & d & Hidle & _ & _ & Hd).
  apply (elapse_closes w n s channel h d); try done. lia.
Qed.

(** X11. No channel is left open: in whatever state a live process is, if
    [ipc] is set and the relay is not called for 3000 ms or more, the
    channel is disconnected and [ipc] unset, and nothing else happens on
    the channel in that time. *)
Theorem open_channel_is_closed (w : surroundings) (e : gmap string string)
    (ins : list input) (channel n : nat) :
  let s := run_inputs w ins (fresh_proc e) in
  exited s = false ->
  ipc s = Some channel ->
  3000 <= n ->
  ipc (elapse w n s) = None
  /\ wire (out (elapse w n s)) = wire (out s) ++ [IpcDisconnect channel].
Proof.
  intros s Hex Hipc Hn.
  apply sound_channel_closes; try done.
  apply run_inputs_sound, fresh_proc_sound.
Qed.

Lemma open_channel_is_closed_witness :
  let s := run_inputs sample_world
             [InvokeRun scenario_D_args; ServerListening; Elapse 1200]
             (fresh_proc ∅) in
  exited s = false
  /\ ipc s = Some 0
  /\ 3000 <= 3000
  /\ ipc (elapse sample_world 3000 s) = None.
Proof.
  assert (Hex : exited (run_inputs sample_world
                          [InvokeRun scenario_D_args; ServerListening;
                           Elapse 1200] (fresh_proc ∅)) = false)
    by (vm_compute; reflexivity).
  assert (Hipc : ipc (run_inputs sample_world
                        [InvokeRun scenario_D_args; ServerListening;
                         Elapse 1200] (fresh_proc ∅)) = Some 0)
    by (vm_compute; reflexivity).
  split; [exact Hex|]. split; [exact Hipc|]. split; [lia|].
  exact (proj1 (open_channel_is_closed sample_world ∅
                  [InvokeRun scenario_D_args; ServerListening; Elapse 1200]
                  0 3000 Hex Hipc (le_n 3000))).
Defined.

(** X12. After an idle close the relay opens anew: a call that comes 3000 ms
    or more after the last one finds the old channel disconnected, connects
    a channel that was never used before and sends on that one. *)
Theorem relay_reopens_after_idle (w : surroundings) (e : gmap string string)
    (ins : list input) (channel n : nat) (m : payload) :
  let s := run_inputs w ins (fresh_proc e) in
  IpcMessenger w = true ->
  exited s = false ->
  ipc s = Some channel ->
  3000 <= n ->
  let s' := sendIpcMessage w m (elapse w n s) in
  exists fresh,
    channel < fresh
    /\ ipc s' = Some fresh
    /\ wire (out s')
       = wire (out s) ++ [IpcDisconnect channel; IpcConnect fresh;
                          IpcSend fresh (wrap m)].
Proof.
  intros s Hw Hex Hipc Hn s'.
  pose proof (run_inputs_sound w ins _ (fresh_proc_sound e)) as Hs.
  fold s in Hs.
  destruct (sound_channel_closes w n s channel Hs Hex Hipc Hn)
    as [Hclosed Hwire].
  destruct (elapse_sound w n s Hs) as (_ & _ & Hni).
  pose proof (sendIpcMessage_channel w m (elapse w n s)) as Hc.
  rewrite Hclosed, Hw in Hc. destruct Hc as (Hipc' & _ & Hout).
  fold s' in Hipc', Hout.
  destruct Hs as (Hinv & _). unfold relay_inv in Hinv.
  rewrite Hipc in Hinv. destruct Hinv as (Hlt & _).
  exists (next_ipc s). rewrite Hni in Hipc', Hout.
  split; [done|]. split; [done|].
  rewrite Hout, wire_app, Hwire, <- app_assoc. f_equal.
Qed.

Lemma relay_reopens_after_idle_witness :
  let s := run_inputs sample_world
             [InvokeRun scenario_D_args; ServerListening; Elapse 1200]
             (fresh_proc ∅) in
  IpcMessenger sample_world = true
  /\ exited s = false
  /\ ipc s = Some 0
  /\ 3000 <= 4000
  /\ exists fresh,
       0 < fresh
       /\ ipc (sendIpcMessage sample_world status_ok
                (elapse sample_world 4000 s)) = Some fresh.
Proof.
  assert (Hex : exited (run_inputs sample_world
                          [InvokeRun scenario_D_args; ServerListening;
                           Elapse 1200] (fresh_proc ∅)) = false)
    by (vm_compute; reflexivity).
  assert (Hipc : ipc (run_inputs sample_world
                        [InvokeRun scenario_D_args; ServerListening;
                         Elapse 1200] (fresh_proc ∅)) = Some 0)
    by (vm_compute; reflexivity).
  split; [reflexivity|]. split; [exact Hex|]. split; [exact Hipc|].
  split; [lia|].
  destruct (relay_reopens_after_idle sample_world ∅
              [InvokeRun scenario_D_args; ServerListening; Elapse 1200]
              0 4000 status_ok eq_refl Hex Hipc)
    as (fresh & Hlt & Hfresh & _); [lia|].
  exists fresh. split; [exact Hlt|exact Hfresh].
Defined.

(** ** What the listener on the channel knows *)

Lemma last_error_app (ps qs : list payload) :
  last_error (ps ++ qs)
  = match last_error qs with
    | Some flag => Some flag
    | None => last_error ps
    end.
Proof.
  unfold last_error. rewrite omap_app.
  destruct (omap p_error qs) as [|q l] eqn:Hq using rev_ind.
  - by rewrite app_nil_r.
  - by rewrite app_assoc, !last_snoc.
Qed.

Lemma supervise_flag (w : surroundings) (evs : list (nat * nodemon_event))
    (s : proc) (flag : bool) :
  IpcMessenger w = true ->
  live s ->
  last_error (sent (out s)) = Some flag ->
  last_error (sent (out (supervise w evs s))) = Some (flag_after flag evs).
Proof.
  intros Hw. revert s flag.
  induction evs as [|[gap ev] evs IH]; intros s flag Hs Hflag; [done|].
  rewrite supervise_cons.
  pose proof (elapse_live w gap s Hs) as Hs1.
  destruct (elapse_alive_fields w gap s (proj1 Hs)) as (_ & _ & _ & Ho).
  rewrite (watching_dispatch w ev) by apply Hs1.
  assert (Hsent := on_event_sent w ev (elapse w gap s) Hw).
  rewrite Ho in Hsent.
  destruct (quit_or_not ev) as [->|Hev].
  - destruct (on_event_quit w (elapse w gap s)) as [Hx _]; [apply Hs1|].
    rewrite supervise_exited by done.
    rewrite Hsent. simpl. by rewrite app_nil_r.
  - pose proof (on_event_live w ev _ Hs1 Hev) as Hs2.
    destruct ev; try done; simpl flag_after; apply IH; try done;
      rewrite Hsent, last_error_app; simpl; done.
Qed.

(** X13. The error flag on the channel tracks the child: with a transport
    at hand, after any run of the supervisor the last status object that
    carries an [error] key says [true] exactly when the last restart or
    crash the supervisor handled was a crash, and [false] when there was
    none. *)
Theorem error_flag_tracks_child (w : surroundings) (e : gmap string string)
    (args : gmap string jsval) (evs : list (nat * nodemon_event)) :
  IpcMessenger w = true ->
  last_error (sent (out (supervise w evs (apollo_watch w args (fresh_proc e)))))
  = Some (flag_after false evs).
Proof.
  intros Hw. apply supervise_flag; [done|apply apollo_watch_live|].
  by rewrite apollo_watch_out.
Qed.

Lemma error_flag_tracks_child_witness :
  IpcMessenger sample_world = true
  /\ last_error
       (sent (out (supervise sample_world
                     [(5, Restart); (10, Crash); (3, Stdout ["x"])]
                     (apollo_watch sample_world ∅ (fresh_proc ∅)))))
     = Some true.
Proof.
  split; [reflexivity|].
  exact (error_flag_tracks_child sample_world ∅ ∅
           [(5, Restart); (10, Crash); (3, Stdout ["x"])] eq_refl).
Defined.

(** ** The webpack side *)

Lemma chain_get_set {A} (name name' : string) (v : A)
    (m : list (string * A)) :
  chain_get name' (chain_set name v m)
  = if String.eqb name name' then Some v else chain_get name' m.
Proof.
  induction m as [|[k v'] m IH]; simpl.
  - by destruct (String.eqb name name').
  - destruct (String.eqb k name) eqn:Hk; simpl.
    + apply String.eqb_eq in Hk as ->.
      by destruct (String.eqb name name').
    + destruct (String.eqb k name') eqn:Hk'.
      * apply String.eqb_eq in Hk' as ->.
        rewrite String.eqb_sym in Hk. by rewrite Hk.
      * exact IH.
Qed.

Lemma useThreads_threaded (b : build) : truthy (useThreads b) = threaded b.
Proof.
  unfold useThreads, threaded. destruct (NODE_ENV b) as [mode|]; [|done].
  by destruct (String.eqb mode "production").
Qed.

Lemma gql_rule_fresh (w : surroundings) (b : build) :
  test (gql_rule w b new_rule) = Some gql_test
  /\ uses (gql_rule w b new_rule)
     = [("cache-loader",
         LoaderUse (Some "cache-loader")
           (Options Absent
              (<["cacheDirectory" :=
                   JStr (api_resolve w "node_modules/.cache/cache-loader")]>
                 ∅)))]
       ++ (if threaded b
           then [("thread-loader", LoaderUse (Some "thread-loader") NoOptions)]
           else [])
       ++ [("gql-loader", LoaderUse (Some "graphql-tag/loader") NoOptions)].
Proof.
  unfold gql_rule. rewrite useThreads_threaded.
  by destruct (threaded b).
Qed.

(** The callback, when the linter is there with its options. *)
Lemma chainWebpack_linted (w : surroundings) (b : build)
    (config : list (string * module_rule)) (r : module_rule)
    (u : loader_use) (c : identifier) (others : gmap string jsval) :
  hasPlugin_eslint b = true ->
  chain_get "eslint" config = Some r ->
  chain_get "eslint-loader" (uses r) = Some u ->
  options u = Options c others ->
  chainWebpack w b config
  = Configured
      (chain_set "eslint"
         (ModuleRule (Some eslint_test) (include r)
            (chain_set "eslint-loader"
               (LoaderUse (loader u)
                  (Options
                     (extend_identifier c
                        (fst (generateCacheIdentifier b (api_resolve w "."))))
                     others))
               (uses r)))
         (chain_set "gql"
            (gql_rule w b (default new_rule (chain_get "gql" config)))
            config))
      (snd (generateCacheIdentifier b (api_resolve w "."))).
Proof.
  intros Hplugin Hr Hu Ho. unfold chainWebpack.
  rewrite chain_get_set. simpl String.eqb. cbv iota.
  rewrite Hr, Hplugin, Hu. simpl default. rewrite Ho.
  by destruct (generateCacheIdentifier b (api_resolve w ".")).
Qed.

(** X14. In a configuration without a rule [gql] the callback makes one
    for the files ending in [.gql] or [.graphql], with the loaders
    [cache-loader], then [thread-loader] exactly in a production build with
    [parallel] set, then [graphql-tag/loader], in this order. *)
Theorem gql_rule_loaders (w : surroundings) (b : build)
    (config config' : list (string * module_rule)) :
  chain_get "gql" config = None ->
  configured (chainWebpack w b config) = Some config' ->
  exists r,
    chain_get "gql" config' = Some r
    /\ test r = Some gql_test
    /\ map (fun u => (fst u, loader (snd u))) (uses r)
       = [("cache-loader", Some "cache-loader")]
         ++ (if threaded b then [("thread-loader", Some "thread-loader")]
             else [])
         ++ [("gql-loader", Some "graphql-tag/loader")].
Proof.
  intros Hfresh Hdone. exists (gql_rule w b new_rule).
  destruct (gql_rule_fresh w b) as [Htest Huses].
  split; [|split; [done|rewrite Huses; by destruct (threaded b)]].
  revert Hdone. unfold chainWebpack. rewrite Hfresh. simpl default.
  set (config1 := chain_set "gql" (gql_rule w b new_rule) config).
  assert (H1 : chain_get "gql" config1 = Some (gql_rule w b new_rule)).
  { unfold config1. rewrite chain_get_set. reflexivity. }
  destruct (chain_get "eslint" config1) as [r|];
    [|simpl; intros [= <-]; exact H1].
  destruct (hasPlugin_eslint b); [|simpl; intros [= <-]; exact H1].
  destruct (generateCacheIdentifier b (api_resolve w ".")) as [id errors].
  destruct (options (default new_use (chain_get "eslint-loader" (uses r))));
    [discriminate|].
  simpl. intros [= <-]. rewrite chain_get_set. exact H1.
Qed.

Lemma gql_rule_loaders_witness :
  chain_get "gql" sample_config = None
  /\ (exists config',
        configured (chainWebpack sample_world (sample_build 1500) sample_config)
        = Some config'
        /\ exists r,
             chain_get "gql" config' = Some r
             /\ map (fun u => fst u) (uses r)
                = ["cache-loader"; "thread-loader"; "gql-loader"]).
Proof.
  split; [reflexivity|].
  eexists. split; [vm_compute; reflexivity|].
  destruct (gql_rule_loaders sample_world (sample_build 1500) sample_config _
              eq_refl eq_refl) as (r & Hr & _ & Huses).
  exists r. split; [exact Hr|].
  apply (f_equal (map fst)) in Huses.
  rewrite map_map in Huses. exact Huses.
Defined.

Lemma chain_get_set_ne {A} (name name' : string) (v : A)
    (m : list (string * A)) :
  name <> name' -> chain_get name' (chain_set name v m) = chain_get name' m.
Proof.
  intros Hne. rewrite chain_get_set.
  by destruct (String.eqb_spec name name').
Qed.

Lemma chain_set_names {A} (name : string) (v : A) (m : list (string * A)) :
  map fst (chain_set name v m)
  = match chain_get name m with
    | Some _ => map fst m
    | None => map fst m ++ [name]
    end.
Proof.
  induction m as [|[k v'] m IH]; simpl; [done|].
  destruct (String.eqb k name); simpl; [done|].
  rewrite IH. by destruct (chain_get name m).
Qed.






Lemma gql_rule_test (w : surroundings) (b : build) (r : module_rule) :
  test (gql_rule w b r) = Some gql_test.
Proof. unfold gql_rule. by destruct (truthy (useThreads b)). Qed.

Lemma generateCacheIdentifier_console (b : build) (context : string) :
  snd (generateCacheIdentifier b context) = []
  \/ snd (generateCacheIdentifier b context) = ["Invalid .graphqlconfig file"]
     /\ existsSync b (path_join [context; ".graphqlconfig"]) = true.
Proof.
  unfold generateCacheIdentifier.
  destruct (existsSync b _); [|by left].
  destruct (_ ≫= _); [by left|by right].
Qed.


(** X18. Without a [.graphqlconfig] the callback appends the text
    [undefined] to the linter's cache identifier, whatever the schema files
    are, and writes nothing. *)
Theorem identifier_without_graphqlconfig (w : surroundings) (b : build)
    (config : list (string * module_rule)) (r : module_rule)
    (u : loader_use) (old : string) (others : gmap string jsval) :
  hasPlugin_eslint b = true ->
  chain_get "eslint" config = Some r ->
  chain_get "eslint-loader" (uses r) = Some u ->
  options u = Options (Text old) others ->
  existsSync b (path_join [api_resolve w "."; ".graphqlconfig"]) = false ->
  exists config',
    chainWebpack w b config = Configured config' []
    /\ eslint_identifier config' = Some (Text (old +:+ "undefined")).
Proof.
  intros Hplugin Hr Hu Ho Hex.
  pose proof (chainWebpack_linted w b config r u (Text old) others
                Hplugin Hr Hu Ho) as Hcw.
  assert (generateCacheIdentifier b (api_resolve w ".") = (JUndefined, []))
    as Hid by (unfold generateCacheIdentifier; simpl in *; by rewrite Hex).
  rewrite Hid in Hcw. simpl in Hcw.
  eexists. split; [exact Hcw|].
  unfold eslint_identifier. rewrite chain_get_set. simpl.
  by rewrite chain_get_set.
Qed.

Lemma identifier_without_graphqlconfig_witness :
  existsSync (Build None JNull true (fun _ => false) (fun _ => None)
                (fun _ => Some 7%Z) (fun _ => None))
    (path_join [api_resolve sample_world "."; ".graphqlconfig"]) = false
  /\ exists config',
       chainWebpack sample_world
         (Build None JNull true (fun _ => false) (fun _ => None)
            (fun _ => Some 7%Z) (fun _ => None)) sample_config
       = Configured config' []
       /\ eslint_identifier config' = Some (Text "abcundefined").
Proof.
  split; [reflexivity|].
  exact (identifier_without_graphqlconfig sample_world
           (Build None JNull true (fun _ => false) (fun _ => None)
              (fun _ => Some 7%Z) (fun _ => None))
           sample_config _ _ "abc" _
           eq_refl eq_refl eq_refl eq_refl eq_refl).
Defined.

(** X19. When the callback returns, the rules are in the order they were,
    with [gql] added last if it was not there, and every rule other than
    [gql] and [eslint] is as it was. *)
Theorem rules_kept_in_place (w : surroundings) (b : build)
    (config config' : list (string * module_rule)) :
  configured (chainWebpack w b config) = Some config' ->
  map fst config' = match chain_get "gql" config with
               | Some _ => map fst config
               | None => map fst config ++ ["gql"]
               end
  /\ forall name, name <> "gql" -> name <> "eslint" ->
       chain_get name config' = chain_get name config.
Proof.
  unfold chainWebpack.
  set (config1 := chain_set "gql" _ config).
  assert (map fst config1 = match chain_get "gql" config with
                       | Some _ => map fst config
                       | None => map fst config ++ ["gql"]
                       end) as Hnames by apply chain_set_names.
  assert (forall name, name <> "gql" ->
            chain_get name config1 = chain_get name config) as Hother.
  { intros name Hne. apply chain_get_set_ne. congruence. }
  destruct (chain_get "eslint" config1) as [r|] eqn:Hr.
  2:{ simpl. intros [= <-]. split; [done|]. intros; by apply Hother. }
  destruct (hasPlugin_eslint b).
  2:{ simpl. intros [= <-]. split; [done|]. intros; by apply Hother. }
  destruct (generateCacheIdentifier b (api_resolve w ".")) as [id errors].
  destruct (options _) as [|c others]; simpl; [done|].
  intros [= <-]. split.
  - by rewrite chain_set_names, Hr.
  - intros name Hgql Heslint. rewrite chain_get_set_ne by congruence.
    by apply Hother.
Qed.

Lemma rules_kept_in_place_witness :
  exists config',
    configured
      (chainWebpack sample_world (sample_build 1500)
         (("images", new_rule) :: sample_config))
    = Some config'
    /\ map fst config' = ["images"; "eslint"; "gql"]
    /\ chain_get "images" config' = Some new_rule.
Proof.
  eexists. split; [vm_compute; reflexivity|].
  destruct (rules_kept_in_place sample_world (sample_build 1500)
              (("images", new_rule) :: sample_config) _ eq_refl)
    as [Hnames Hother].
  split; [exact Hnames|].
  apply (Hother "images"); discriminate.
Defined.

(** X20. The callback writes to the console only when the linter plugin
    is there, the configuration has a rule [eslint] and [.graphqlconfig]
    exists; what it writes is then the one line of
    [generateCacheIdentifier]. *)
Theorem console_only_for_bad_graphqlconfig (w : surroundings) (b : build)
    (config : list (string * module_rule)) :
  console (chainWebpack w b config) <> [] ->
  console (chainWebpack w b config) = ["Invalid .graphqlconfig file"]
  /\ hasPlugin_eslint b = true
  /\ is_Some (chain_get "eslint" config)
  /\ existsSync b (path_join [api_resolve w "."; ".graphqlconfig"]) = true.
Proof.
  unfold chainWebpack. cbv zeta.
  rewrite chain_get_set_ne by discriminate.
  destruct (chain_get "eslint" config) as [r|]; [|done].
  destruct (hasPlugin_eslint b); [|done].
  pose proof (generateCacheIdentifier_console b (api_resolve w ".")) as Haux.
  destruct (generateCacheIdentifier b (api_resolve w ".")) as [id errors].
  simpl in Haux.
  destruct (options _); simpl; intros Hne;
    (destruct Haux as [->|[-> Hex]]; [done|]); repeat split; eauto.
Qed.

Lemma console_only_for_bad_graphqlconfig_witness :
  console
    (chainWebpack sample_world
       (Build None JNull true (fun _ => true) (fun _ => None)
          (fun _ => None) (fun _ => None)) sample_config) <> []
  /\ console
       (chainWebpack sample_world
          (Build None JNull true (fun _ => true) (fun _ => None)
             (fun _ => None) (fun _ => None)) sample_config)
     = ["Invalid .graphqlconfig file"].
Proof.
  assert (console
            (chainWebpack sample_world
               (Build None JNull true (fun _ => true) (fun _ => None)
                  (fun _ => None) (fun _ => None)) sample_config) <> [])
    as Hne by (vm_compute; discriminate).
  split; [exact Hne|].
  exact (proj1 (console_only_for_bad_graphqlconfig sample_world _ _ Hne)).
Defined.

(** X21. Once the callback has returned for a build with the linter plugin
    and a rule [eslint], every file the rule [gql] is tested to take is
    one the rule [eslint] is tested to take. *)
Theorem graphql_files_are_linted (w : surroundings) (b : build)
    (config config' : list (string * module_rule)) (file : string) :
  hasPlugin_eslint b = true ->
  is_Some (chain_get "eslint" config) ->
  configured (chainWebpack w b config) = Some config' ->
  exists g e tg te,
    chain_get "gql" config' = Some g /\ test g = Some tg
    /\ chain_get "eslint" config' = Some e /\ test e = Some te
    /\ exists bg be,
         test_matches tg file = Some bg /\ test_matches te file = Some be
         /\ (bg = true -> be = true).
Proof.
  intros Hplugin [r Hr]. unfold chainWebpack. cbv zeta.
  rewrite chain_get_set_ne by discriminate. rewrite Hr, Hplugin.
  destruct (generateCacheIdentifier b (api_resolve w ".")) as [id errors].
  destruct (options _) as [|c others]; simpl; [done|].
  intros [= <-].
  eexists _, _, gql_test, eslint_test.
  rewrite chain_get_set_ne by discriminate.
  rewrite !chain_get_set. simpl.
  split; [reflexivity|]. split; [by rewrite gql_rule_test|].
  split; [reflexivity|]. split; [reflexivity|].
  eexists _, _. split; [reflexivity|]. split; [reflexivity|].
  simpl. rewrite !orb_true_iff. tauto.
Qed.

Lemma graphql_files_are_linted_witness :
  hasPlugin_eslint (sample_build 1500) = true
  /\ is_Some (chain_get "eslint" sample_config)
  /\ exists config',
       configured (chainWebpack sample_world (sample_build 1500) sample_config)
       = Some config'
       /\ exists g e tg te,
            chain_get "gql" config' = Some g /\ test g = Some tg
            /\ chain_get "eslint" config' = Some e /\ test e = Some te
            /\ exists bg be,
                 test_matches tg "src/q/user.gql" = Some bg
                 /\ test_matches te "src/q/user.gql" = Some be
                 /\ (bg = true -> be = true).
Proof.
  split; [reflexivity|]. split; [by eexists|].
  eexists. split; [vm_compute; reflexivity|].
  exact (graphql_files_are_linted sample_world (sample_build 1500)
           sample_config _ "src/q/user.gql" eq_refl
           (ex_intro _ _ eq_refl) eq_refl).
Defined.
